(** * Tudat, SimulationSetup/EnvironmentSetup/createBodies.h

    A shallow embedding of the body-creation header of Tudat:

    - [setGlobalFrameBodyEphemerides], the frame consistency pass over a
      [NamedBodyMap] (the spec's [enforceGlobalFrame]);
    - [determineBodyCreationOrder], the dependency order resolver (the
      spec's [resolveCreationOrder]), which the header only declares.

    Bodies are heap objects reached through [boost::shared_ptr]; the pass
    mutates them in place and the adapters it attaches keep a pointer to
    another body.  The embedding therefore threads an explicit heap through
    an exception/state monad and lets adapters refer to heap locations. *)

From Stdlib Require Import String List Bool Arith Lia ZArith Permutation.
Import ListNotations.
Open Scope string_scope.
Open Scope list_scope.

Set Implicit Arguments.

(** ** C++ scalar types used as template arguments *)

(** The template arguments [StateScalarType] and [TimeType] range over the
    arithmetic types Tudat instantiates its state functions with. *)
Inductive CppType : Type :=
| cpp_double
| cpp_long_double
| cpp_Time.

(** ** Errors *)

Inductive OrientationSource : Type :=
| ofEphemeris
| ofRotationModel.

(** The three [throw std::runtime_error] sites of
    [setGlobalFrameBodyEphemerides], each with the strings its message is
    built from. *)
Inductive runtime_error : Type :=
| MissingFrameOrigin (body origin globalOrigin : string)
| FrameOrientationMismatch (src : OrientationSource)
                           (body orientation globalOrientation : string).

(** The message of the exception, as the source concatenates it. *)
Definition what (e : runtime_error) : string :=
  match e with
  | MissingFrameOrigin body origin globalOrigin =>
      "Error, body " ++ body ++ " has ephemeris in frame " ++
      origin ++ ", but no conversion to frame " ++ globalOrigin ++
      " can be made"
  | FrameOrientationMismatch ofEphemeris body orientation globalOrientation =>
      "Error, ephemeris orientation of body " ++ body
      ++ " is not the same as global orientation " ++ orientation
      ++ ", " ++ globalOrientation
  | FrameOrientationMismatch ofRotationModel body orientation globalOrientation =>
      "Error, rotation base orientation of body " ++ body ++
      " is not the same as global orientation " ++ orientation ++ ", " ++
      globalOrientation
  end.

(** ** Pointers and the body map *)

(** A [boost::shared_ptr< Body >], as the heap location it points to. *)
Definition loc : Type := nat.

(** Modelled from the spec: [NamedBodyMap] is declared in body.h, which is
    not part of this header.  The spec describes it as a mapping from name
    to (pointer to) Body.  It is represented by its iteration sequence, the
    pairs the loop of [setGlobalFrameBodyEphemerides] visits from
    [begin()] to [end()]; a map has distinct keys ([NoDup (keys m)]). *)
Definition NamedBodyMap : Type := list (string * loc).

Definition keys {A : Type} (m : list (string * A)) : list string :=
  map fst m.

(** [bodyMap.find(key)]: the mapped value, when the key is present.  The
    source tests [bodyMap.count(key) == 0] and then reads [bodyMap.at(key)];
    [count] is [0] exactly when [find] gives nothing. *)
Fixpoint find {A : Type} (m : list (string * A)) (key : string) : option A :=
  match m with
  | [] => None
  | (k, v) :: rest => if String.eqb k key then Some v else find rest key
  end.

Definition count {A : Type} (m : list (string * A)) (key : string) : nat :=
  match find m key with
  | Some _ => 1
  | None => 0
  end.

Section GlobalFrame.

(** The value sets of the time and state scalar types.  Floating-point
    arithmetic is kept abstract: [sadd] is the scalar addition. *)
Variable Time : Type.
Variable Scalar : Type.
Variable sadd : Scalar -> Scalar -> Scalar.

(** [Eigen::Matrix< StateScalarType, 6, 1 >]: position and velocity. *)
Record Vector6 : Type := mkVector6 {
  pos_x : Scalar; pos_y : Scalar; pos_z : Scalar;
  vel_x : Scalar; vel_y : Scalar; vel_z : Scalar
}.

Definition vadd (a b : Vector6) : Vector6 :=
  {| pos_x := sadd (pos_x a) (pos_x b);
     pos_y := sadd (pos_y a) (pos_y b);
     pos_z := sadd (pos_z a) (pos_z b);
     vel_x := sadd (vel_x a) (vel_x b);
     vel_y := sadd (vel_y a) (vel_y b);
     vel_z := sadd (vel_z a) (vel_z b) |}.

(** Modelled from the spec: the Ephemeris class (ephemeris.h is not part of
    this header).  Per the spec and its glossary: a function from time to
    the body's position/velocity state, with a declared frame origin and
    frame orientation. *)
Record Ephemeris : Type := {
  getReferenceFrameOrigin : string;
  getReferenceFrameOrientation : string;
  getCartesianState : Time -> Vector6
}.

(** Modelled from the spec: the RotationalEphemeris class; only its
    declared base frame orientation is used here. *)
Record RotationalEphemeris : Type := {
  getBaseFrameOrientation : string
}.

(** The bound state function of lines 130-132,
    [boost::bind( &Body::getStateInBaseFrameFromEphemeris< StateScalarType,
    TimeType >, bodyMap.at( ephemerisFrameOrigin ), _1 )]: the body pointer
    it captures and the template arguments of the member it binds. *)
Record StateFunction : Type := {
  boundBody : loc;
  functionStateScalarType : CppType;
  functionTimeType : CppType
}.

(** The object of lines 134-135,
    [BaseStateInterfaceImplementation< A1, A2 >( baseFrameId,
    stateFunction )]: its two template arguments, the frame name and the
    state function it wraps.  The record is the content of the object;
    which allocation of [make_shared] it is, is not represented. *)
Record BaseStateInterface : Type := {
  implementationArg1 : CppType;
  implementationArg2 : CppType;
  baseFrameId : string;
  stateFunction : StateFunction
}.

(** Modelled from the spec: the Body class (body.h is not part of this
    header).  Per the spec: accessors for the ephemeris and the rotational
    ephemeris, each of which may be absent, and a mutable slot for the
    base-frame translation adapter. *)
Record Body : Type := {
  getEphemeris : option Ephemeris;
  getRotationalEphemeris : option RotationalEphemeris;
  ephemerisFrameToBaseFrame : option BaseStateInterface
}.

(** The heap of [Body] objects.  Every pointer of a body map is
    dereferenced by the source without a check, so the heap is total. *)
Definition Heap : Type := loc -> Body.

Definition update (h : Heap) (l : loc) (b : Body) : Heap :=
  fun l' => if Nat.eqb l' l then b else h l'.

(** ** The exception/state monad of the pass *)

Inductive completion (A : Type) : Type :=
| Returned (a : A)
| Thrown (e : runtime_error).
Arguments Returned {A} a.
Arguments Thrown {A} e.

Definition Exec (A : Type) : Type := Heap -> completion A * Heap.

Definition ret {A : Type} (a : A) : Exec A := fun h => (Returned a, h).

Definition throw {A : Type} (e : runtime_error) : Exec A :=
  fun h => (Thrown e, h).

Definition bind {A B : Type} (c : Exec A) (k : A -> Exec B) : Exec B :=
  fun h =>
    match c h with
    | (Returned a, h') => k a h'
    | (Thrown e, h') => (Thrown e, h')
    end.

Notation "x <- c ;; k" := (bind c (fun x => k))
  (at level 61, c at next level, right associativity).
Notation "c ;; k" := (bind c (fun _ => k))
  (at level 61, right associativity).

(** [*pointer] *)
Definition deref (l : loc) : Exec Body := fun h => (Returned (h l), h).

(** Modelled from the spec: [Body::setEphemerisFrameToBaseFrame], which
    stores the adapter in the body's slot. *)
Definition setEphemerisFrameToBaseFrame
    (l : loc) (a : BaseStateInterface) : Exec unit :=
  fun h =>
    (Returned tt,
     update h l {| getEphemeris := getEphemeris (h l);
                   getRotationalEphemeris := getRotationalEphemeris (h l);
                   ephemerisFrameToBaseFrame := Some a |}).

(** ** setGlobalFrameBodyEphemerides *)

Section Pass.

(** Template arguments and function arguments. *)
Variable StateScalarType : CppType.
Variable TimeType : CppType.
Variable bodyMap : NamedBodyMap.
Variable globalFrameOrigin : string.
Variable globalFrameOrientation : string.

(** Lines 130-135: the adapter built for a body whose ephemeris origin is
    the map key [ephemerisFrameOrigin], mapped to [originBody]. *)
Definition makeBaseStateInterface
    (ephemerisFrameOrigin : string) (originBody : loc) : BaseStateInterface :=
  {| implementationArg1 := cpp_double;
     implementationArg2 := cpp_double;
     baseFrameId := ephemerisFrameOrigin;
     stateFunction :=
       {| boundBody := originBody;
          functionStateScalarType := StateScalarType;
          functionTimeType := TimeType |} |}.

(** Lines 112-154: the ephemeris block of the loop body.  Line 142 asks
    the body for its ephemeris again; the attachment of line 137 leaves the
    ephemeris in place, so it is the one read at line 115. *)
Definition checkEphemeris (name : string) (l : loc) : Exec unit :=
  b <- deref l ;;
  match getEphemeris b with
  | None => ret tt
  | Some eph =>
      let ephemerisFrameOrigin := getReferenceFrameOrigin eph in
      (if negb (String.eqb ephemerisFrameOrigin globalFrameOrigin) then
         match find bodyMap ephemerisFrameOrigin with
         | None =>
             throw (MissingFrameOrigin name ephemerisFrameOrigin
                                       globalFrameOrigin)
         | Some originBody =>
             setEphemerisFrameToBaseFrame l
               (makeBaseStateInterface ephemerisFrameOrigin originBody)
         end
       else ret tt) ;;
      let ephemerisFrameOrientation := getReferenceFrameOrientation eph in
      if negb (String.eqb ephemerisFrameOrientation globalFrameOrientation)
      then throw (FrameOrientationMismatch ofEphemeris name
                    ephemerisFrameOrientation globalFrameOrientation)
      else ret tt
  end.

(** Lines 157-172: the rotational ephemeris block of the loop body. *)
Definition checkRotationalEphemeris (name : string) (l : loc) : Exec unit :=
  b <- deref l ;;
  match getRotationalEphemeris b with
  | None => ret tt
  | Some rot =>
      let rotationModelFrame := getBaseFrameOrientation rot in
      if negb (String.eqb rotationModelFrame globalFrameOrientation)
      then throw (FrameOrientationMismatch ofRotationModel name
                    rotationModelFrame globalFrameOrientation)
      else ret tt
  end.

(** Lines 108-173: the loop, over the entries from the iterator on. *)
Fixpoint iterate (entries : NamedBodyMap) : Exec unit :=
  match entries with
  | [] => ret tt
  | (name, l) :: rest =>
      checkEphemeris name l ;;
      checkRotationalEphemeris name l ;;
      iterate rest
  end.

Definition setGlobalFrameBodyEphemerides : Exec unit := iterate bodyMap.

End Pass.

(** ** Body::getStateInBaseFrameFromEphemeris *)

(** Modelled from the spec: [Body::getStateInBaseFrameFromEphemeris]
    (body.h is not part of this header).  Per the spec the state of a body
    in the base frame is obtained through its ephemeris and any adapter
    attached to it, the adapter being queried when the state is asked for.
    The recursion through the adapters is bounded by [fuel]; [None] stands
    for a query that does not return (no ephemeris to read, or a chain of
    adapters longer than the fuel). *)
Fixpoint getStateInBaseFrameFromEphemeris
    (fuel : nat) (h : Heap) (l : loc) (time : Time) : option Vector6 :=
  match fuel with
  | 0 => None
  | S fuel' =>
      match getEphemeris (h l) with
      | None => None
      | Some eph =>
          match ephemerisFrameToBaseFrame (h l) with
          | None => Some (getCartesianState eph time)
          | Some a =>
              match getStateInBaseFrameFromEphemeris
                      fuel' h (boundBody (stateFunction a)) time with
              | None => None
              | Some s => Some (vadd (getCartesianState eph time) s)
              end
          end
      end
  end.

(** Invoking an adapter: its state function is the bound member call on the
    body it captured, evaluated in the heap of the moment of the call. *)
Definition getBaseFrameState
    (fuel : nat) (h : Heap) (a : BaseStateInterface) (time : Time)
  : option Vector6 :=
  getStateInBaseFrameFromEphemeris fuel h (boundBody (stateFunction a)) time.

End GlobalFrame.

Arguments Returned {A} a.
Arguments Thrown {A} e.
Arguments ret {Time Scalar A} a.
Arguments throw {Time Scalar A} e.
Arguments setGlobalFrameBodyEphemerides {Time Scalar}.
Arguments iterate {Time Scalar}.
Arguments checkEphemeris {Time Scalar}.
Arguments checkRotationalEphemeris {Time Scalar}.

(** ** What one round of the loop does, read off the loop body *)

Section Summary.

Variable Time : Type.
Variable Scalar : Type.
Variable StateScalarType : CppType.
Variable TimeType : CppType.
Variable bodyMap : NamedBodyMap.
Variable globalFrameOrigin : string.
Variable globalFrameOrientation : string.

(** The adapter the loop body attaches to a body: there is one exactly when
    the body has an ephemeris whose origin is not the global origin and is
    a key of the map. *)
Definition adapterFor (b : Body Time Scalar) : option BaseStateInterface :=
  match getEphemeris b with
  | None => None
  | Some eph =>
      if String.eqb (getReferenceFrameOrigin eph) globalFrameOrigin then None
      else match find bodyMap (getReferenceFrameOrigin eph) with
           | None => None
           | Some originBody =>
               Some (makeBaseStateInterface StateScalarType TimeType
                       (getReferenceFrameOrigin eph) originBody)
           end
  end.

Definition attachTo (b : Body Time Scalar) : Body Time Scalar :=
  match adapterFor b with
  | None => b
  | Some a => {| getEphemeris := getEphemeris b;
                 getRotationalEphemeris := getRotationalEphemeris b;
                 ephemerisFrameToBaseFrame := Some a |}
  end.

(** The heap after the attachment step for the body at [l]. *)
Definition attach (h : Heap Time Scalar) (l : loc) : Heap Time Scalar :=
  match adapterFor (h l) with
  | None => h
  | Some a => update h l {| getEphemeris := getEphemeris (h l);
                            getRotationalEphemeris :=
                              getRotationalEphemeris (h l);
                            ephemerisFrameToBaseFrame := Some a |}
  end.

Definition attachAll (entries : NamedBodyMap) (h : Heap Time Scalar)
  : Heap Time Scalar :=
  fold_left (fun h' entry => attach h' (snd entry)) entries h.

Definition rotationError (name : string) (b : Body Time Scalar)
  : option runtime_error :=
  match getRotationalEphemeris b with
  | None => None
  | Some rot =>
      if String.eqb (getBaseFrameOrientation rot) globalFrameOrientation
      then None
      else Some (FrameOrientationMismatch ofRotationModel name
                   (getBaseFrameOrientation rot) globalFrameOrientation)
  end.

(** The exception the ephemeris block throws for the entry
    [(name, pointer to b)], if any: the origin check comes first. *)
Definition ephemerisError (name : string) (b : Body Time Scalar)
  : option runtime_error :=
  match getEphemeris b with
  | None => None
  | Some eph =>
      if negb (String.eqb (getReferenceFrameOrigin eph) globalFrameOrigin)
         && Nat.eqb (count bodyMap (getReferenceFrameOrigin eph)) 0
      then Some (MissingFrameOrigin name (getReferenceFrameOrigin eph)
                   globalFrameOrigin)
      else if String.eqb (getReferenceFrameOrientation eph)
                         globalFrameOrientation
      then None
      else Some (FrameOrientationMismatch ofEphemeris name
                   (getReferenceFrameOrientation eph) globalFrameOrientation)
  end.

(** The exception one round of the loop throws, if any, in the order of
    the checks. *)
Definition firstError (name : string) (b : Body Time Scalar)
  : option runtime_error :=
  match ephemerisError name b with
  | Some e => Some e
  | None => rotationError name b
  end.

(** The heap at the moment a round throws [e] for the body at [l]: the
    origin check throws before the attachment, the orientation checks
    after it. *)
Definition heapAtThrow (e : runtime_error) (h : Heap Time Scalar) (l : loc)
  : Heap Time Scalar :=
  match e with
  | MissingFrameOrigin _ _ _ => h
  | FrameOrientationMismatch _ _ _ _ => attach h l
  end.

(** The condition of the spec on one body of the map. *)
Definition frameConsistent (b : Body Time Scalar) : Prop :=
  (forall eph, getEphemeris b = Some eph ->
     (getReferenceFrameOrigin eph = globalFrameOrigin \/
      In (getReferenceFrameOrigin eph) (keys bodyMap)) /\
     getReferenceFrameOrientation eph = globalFrameOrientation) /\
  (forall rot, getRotationalEphemeris b = Some rot ->
     getBaseFrameOrientation rot = globalFrameOrientation).

End Summary.

(** Some entry of the sequence points to the body at [l]. *)
Definition pointsTo (entries : NamedBodyMap) (l : loc) : bool :=
  existsb (fun entry => Nat.eqb (snd entry) l) entries.

(** The frame names two bodies declare are the same: the origin and
    orientation of their ephemerides and the base frame orientation of
    their rotational ephemerides, each present in both or in neither. *)
Definition sameFrames {Time Scalar : Type} (b b' : Body Time Scalar) : Prop :=
  option_map (fun eph => (getReferenceFrameOrigin eph,
                          getReferenceFrameOrientation eph))
             (getEphemeris b) =
  option_map (fun eph => (getReferenceFrameOrigin eph,
                          getReferenceFrameOrientation eph))
             (getEphemeris b') /\
  option_map getBaseFrameOrientation (getRotationalEphemeris b) =
  option_map getBaseFrameOrientation (getRotationalEphemeris b').

(** What an adapter object holds: its template arguments, its frame name,
    the body its state function is bound to and the template arguments of
    that function. *)
Definition adapterContent (a : BaseStateInterface)
  : CppType * CppType * string * loc * CppType * CppType :=
  (implementationArg1 a, implementationArg2 a, baseFrameId a,
   boundBody (stateFunction a),
   functionStateScalarType (stateFunction a),
   functionTimeType (stateFunction a)).

(** The state query of the body at [l] returns, going through [depth]
    adapters: every body on the chain of bound bodies has an ephemeris and
    the chain ends at a body without adapter. *)
Inductive StateDefined (Time Scalar : Type) (h : Heap Time Scalar)
  : loc -> nat -> Prop :=
| StateDefined_root : forall l eph,
    getEphemeris (h l) = Some eph ->
    ephemerisFrameToBaseFrame (h l) = None ->
    StateDefined h l 0
| StateDefined_step : forall l eph a depth,
    getEphemeris (h l) = Some eph ->
    ephemerisFrameToBaseFrame (h l) = Some a ->
    StateDefined h (boundBody (stateFunction a)) depth ->
    StateDefined h l (S depth).

(** The outcome and the heap of a run. *)
Definition outcome {Time Scalar A : Type}
    (r : completion A * Heap Time Scalar) : completion A := fst r.
Definition finalHeap {Time Scalar A : Type}
    (r : completion A * Heap Time Scalar) : Heap Time Scalar := snd r.

(** ** The settings model and determineBodyCreationOrder *)

(** Modelled from the spec: EphemerisSettings (createEphemeris.h is not
    part of this header).  Per the spec the settings relevant to the
    resolver expose a declared frame-origin name and frame-orientation
    name. *)
Record EphemerisSettings : Type := {
  ephemerisFrameOrigin : string;
  ephemerisFrameOrientation : string
}.

(** Modelled from the spec: RotationModelSettings (createRotationModel.h is
    not part of this header), with its declared frame-origin and
    frame-orientation names. *)
Record RotationModelSettings : Type := {
  rotationFrameOrigin : string;
  rotationFrameOrientation : string
}.

Section CreationOrder.

(** The settings classes of the other domains (atmosphere, gravity field,
    shape, radiation pressure, aerodynamic coefficients, gravity field
    variations) are opaque descriptors here. *)
Variable DomainSettings : Type.

(** [struct BodySettings], lines 39-66: a [boost::shared_ptr] member is an
    option, the [std::map] member an association list, the [std::vector]
    member a list. *)
Record BodySettings : Type := {
  atmosphereSettings : option DomainSettings;
  ephemerisSettings : option EphemerisSettings;
  gravityFieldSettings : option DomainSettings;
  rotationModelSettings : option RotationModelSettings;
  shapeModelSettings : option DomainSettings;
  radiationPressureSettings : list (string * DomainSettings);
  aerodynamicCoefficientSettings : option DomainSettings;
  gravityFieldVariationSettings : list DomainSettings
}.

(** The argument of [determineBodyCreationOrder], a
    [std::map< std::string, boost::shared_ptr< BodySettings > >], as the
    sequence of its entries in iteration order (the original input order);
    a map has distinct keys.  The result vector has the same entry type. *)
Definition SettingsMap : Type := list (string * BodySettings).

(** Modelled from the spec: the frame-origin names the ephemeris and
    rotation settings of a body declare (an input of
    [determineBodyCreationOrder], whose body is not part of this header). *)
Definition declaredOrigins (s : BodySettings) : list string :=
  match ephemerisSettings s with
  | Some e => [ephemerisFrameOrigin e]
  | None => []
  end ++
  match rotationModelSettings s with
  | Some r => [rotationFrameOrigin r]
  | None => []
  end.

Definition mem (x : string) (l : list string) : bool :=
  existsb (String.eqb x) l.

(** Modelled from the spec: the edge of the dependency graph.  Body [b] of
    the set declares the frame origin [o], and [o] is a key of the set. *)
Definition dependsOn (m : SettingsMap) (b o : string) : Prop :=
  exists s, In (b, s) m /\ In o (declaredOrigins s) /\ In o (keys m).

Inductive ResolveError : Type :=
| CycleDetected (body : string).

Inductive resolved (A : Type) : Type :=
| Ordered (order : A)
| Failed (e : ResolveError).
Arguments Ordered {A} order.
Arguments Failed {A} e.

(** Modelled from the spec: a round of [determineBodyCreationOrder].  A
    pending body can be emitted when none of its declared origins is still
    pending.  An origin that is not a key of the input is never pending, so
    it does not constrain the body. *)
Definition ready (pendingNames : list string) (s : BodySettings) : bool :=
  forallb (fun o => negb (mem o pendingNames)) (declaredOrigins s).

(** Modelled from the spec: the stable choice of
    [determineBodyCreationOrder], the first pending entry, in input order,
    that is ready, and the other pending entries in their order. *)
Fixpoint selectReady (pendingNames : list string) (candidates : SettingsMap)
  : option ((string * BodySettings) * SettingsMap) :=
  match candidates with
  | [] => None
  | (name, s) :: rest =>
      if ready pendingNames s then Some ((name, s), rest)
      else match selectReady pendingNames rest with
           | Some (chosen, others) => Some (chosen, (name, s) :: others)
           | None => None
           end
  end.

(** Modelled from the spec: the first declared origin of a body that is
    still pending (used to name a body of a cycle). *)
Definition blocker (pendingNames : list string) (s : BodySettings)
  : option string :=
  List.find (fun o => mem o pendingNames) (declaredOrigins s).

(** Modelled from the spec: how [determineBodyCreationOrder] names a body
    of a cycle.  When no pending body is ready, follow blockers from a
    pending body until a body is met a second time: that body lies on a
    cycle. *)
Fixpoint walk (fuel : nat) (pending : SettingsMap) (visited : list string)
    (current : string) : string :=
  match fuel with
  | 0 => current
  | S fuel' =>
      if mem current visited then current
      else match find pending current with
           | None => current
           | Some s =>
               match blocker (keys pending) s with
               | None => current
               | Some o => walk fuel' pending (current :: visited) o
               end
           end
  end.

Definition cycleMember (pending : SettingsMap) : string :=
  match pending with
  | [] => ""
  | (name, _) :: _ => walk (S (length pending)) pending [] name
  end.

(** Modelled from the spec: the loop of [determineBodyCreationOrder],
    Kahn's algorithm in its stable form.  Repeatedly emit the first ready
    pending body; each round removes one pending body, so [length pending]
    rounds suffice. *)
Fixpoint resolve (rounds : nat) (pending : SettingsMap)
  : resolved SettingsMap :=
  match pending with
  | [] => Ordered []
  | _ :: _ =>
      match rounds with
      | 0 => Failed (CycleDetected (cycleMember pending))
      | S rounds' =>
          match selectReady (keys pending) pending with
          | None => Failed (CycleDetected (cycleMember pending))
          | Some (chosen, others) =>
              match resolve rounds' others with
              | Ordered order => Ordered (chosen :: order)
              | Failed e => Failed e
              end
          end
      end
  end.

(** Modelled from the spec: [determineBodyCreationOrder] (lines 68-69 only
    declare it; its body is in createBodies.cpp, which is not part of this
    header).  Per the spec: build the frame-origin edges among the bodies
    of the input, sort topologically and stably, and fail with
    [CycleDetected], naming a body of a cycle, when there is one. *)
Definition determineBodyCreationOrder (bodySettings : SettingsMap)
  : resolved SettingsMap :=
  resolve (length bodySettings) bodySettings.

(** Position of the first occurrence of a name ([length l] when absent). *)
Fixpoint index (x : string) (l : list string) : nat :=
  match l with
  | [] => 0
  | y :: rest => if String.eqb y x then 0 else S (index x rest)
  end.

(** [o] appears strictly before [b] in the sequence of names [l]. *)
Definition appearsBefore (o b : string) (l : list string) : Prop :=
  index o l < index b l /\ index b l < length l.

(** A cycle of the dependency graph through [b]. *)
Definition onCycle (m : SettingsMap) (b : string) : Prop :=
  Relation_Operators.clos_trans string (dependsOn m) b b.

Definition acyclic (m : SettingsMap) : Prop :=
  forall b, ~ onCycle m b.

End CreationOrder.

Arguments Ordered {A} order.
Arguments Failed {A} e.

(** ** Example environments *)

(** Times and scalars are integers in the examples; a body moves on a
    line. *)
Definition linearState (p v : Z) : Z -> Vector6 Z :=
  fun t => mkVector6 (p + v * t)%Z 0%Z 0%Z v 0%Z 0%Z.

Definition exampleEphemeris (origin orientation : string) (p v : Z)
  : Ephemeris Z Z :=
  {| getReferenceFrameOrigin := origin;
     getReferenceFrameOrientation := orientation;
     getCartesianState := linearState p v |}.

Definition bodyWithEphemeris (eph : Ephemeris Z Z) : Body Z Z :=
  {| getEphemeris := Some eph;
     getRotationalEphemeris := None;
     ephemerisFrameToBaseFrame := None |}.

Definition bodyWithRotation (baseOrientation : string) : Body Z Z :=
  {| getEphemeris := None;
     getRotationalEphemeris :=
       Some {| getBaseFrameOrientation := baseOrientation |};
     ephemerisFrameToBaseFrame := None |}.

Definition bodyWithoutModels : Body Z Z :=
  {| getEphemeris := None;
     getRotationalEphemeris := None;
     ephemerisFrameToBaseFrame := None |}.

Definition heapOf (bodies : list (Body Z Z)) : Heap Z Z :=
  fun l => nth l bodies bodyWithoutModels.

(** Earth about the barycentre, the Moon about Earth, and a probe without
    models. *)
Definition earthEphemeris : Ephemeris Z Z :=
  exampleEphemeris "SSB" "ECLIPJ2000" 100 3.
Definition moonEphemeris : Ephemeris Z Z :=
  exampleEphemeris "Earth" "ECLIPJ2000" 7 1.
Definition earthMoonMap : NamedBodyMap :=
  [("Earth", 0); ("Moon", 1); ("Probe", 2)].
Definition earthMoonHeap : Heap Z Z :=
  heapOf [bodyWithEphemeris earthEphemeris;
          bodyWithEphemeris moonEphemeris;
          bodyWithoutModels].

(** The same, with a Moon ephemeris in another orientation. *)
Definition tiltedMoonEphemeris : Ephemeris Z Z :=
  exampleEphemeris "Earth" "J2000" 7 1.
Definition tiltedMoonHeap : Heap Z Z :=
  heapOf [bodyWithEphemeris earthEphemeris;
          bodyWithEphemeris tiltedMoonEphemeris;
          bodyWithoutModels].

(** The same, with an Earth ephemeris in another orientation. *)
Definition tiltedEarthEphemeris : Ephemeris Z Z :=
  exampleEphemeris "SSB" "J2000" 100 3.
Definition tiltedEarthHeap : Heap Z Z :=
  heapOf [bodyWithEphemeris tiltedEarthEphemeris;
          bodyWithEphemeris moonEphemeris;
          bodyWithoutModels].

(** Body A in another orientation, then body B about an unmanaged
    origin. *)
Definition strayEphemeris : Ephemeris Z Z :=
  exampleEphemeris "Y" "ECLIPJ2000" 1 1.
Definition twoFailuresMap : NamedBodyMap := [("A", 0); ("B", 1)].
Definition twoFailuresHeap : Heap Z Z :=
  heapOf [bodyWithEphemeris tiltedEarthEphemeris;
          bodyWithEphemeris strayEphemeris].

(** One body X about an unmanaged origin Y. *)
Definition strayMap : NamedBodyMap := [("X", 0)].
Definition strayHeap : Heap Z Z :=
  heapOf [bodyWithEphemeris strayEphemeris].

(** One body X about an unmanaged origin Y, in another orientation. *)
Definition strayTiltedEphemeris : Ephemeris Z Z :=
  exampleEphemeris "Y" "J2000" 1 1.
Definition strayTiltedHeap : Heap Z Z :=
  heapOf [bodyWithEphemeris strayTiltedEphemeris].

(** A rotation model in J2000. *)
Definition marsMap : NamedBodyMap := [("Mars", 0)].
Definition marsHeap : Heap Z Z := heapOf [bodyWithRotation "J2000"].

(** Two bodies, each with the other as its ephemeris origin. *)
Definition mutualMap : NamedBodyMap := [("A", 0); ("B", 1)].
Definition mutualHeap : Heap Z Z :=
  heapOf [bodyWithEphemeris (exampleEphemeris "B" "ECLIPJ2000" 1 1);
          bodyWithEphemeris (exampleEphemeris "A" "ECLIPJ2000" 2 1)].

(** Earth and the Moon with other trajectories, the Moon already carrying
    an adapter from an earlier set-up. *)
Definition earthMoonHeapLater : Heap Z Z :=
  heapOf [bodyWithEphemeris (exampleEphemeris "SSB" "ECLIPJ2000" 0 9);
          {| getEphemeris :=
               Some (exampleEphemeris "Earth" "ECLIPJ2000" 4 2);
             getRotationalEphemeris := None;
             ephemerisFrameToBaseFrame :=
               Some (makeBaseStateInterface cpp_long_double cpp_Time
                       "Mars" 7) |};
          bodyWithoutModels].

(** The Moon about Earth, Earth about the Sun, the Sun about the
    barycentre. *)
Definition chainMap : NamedBodyMap := [("Earth", 0); ("Moon", 1); ("Sun", 2)].
Definition chainHeap : Heap Z Z :=
  heapOf [bodyWithEphemeris (exampleEphemeris "Sun" "ECLIPJ2000" 100 3);
          bodyWithEphemeris moonEphemeris;
          bodyWithEphemeris (exampleEphemeris "SSB" "ECLIPJ2000" 1000 0)].

(** The same chain with a fourth body X in another orientation. *)
Definition faultyChainMap : NamedBodyMap :=
  [("Earth", 0); ("Moon", 1); ("Sun", 2); ("X", 3)].
Definition faultyChainHeap : Heap Z Z :=
  heapOf [bodyWithEphemeris (exampleEphemeris "Sun" "ECLIPJ2000" 100 3);
          bodyWithEphemeris moonEphemeris;
          bodyWithEphemeris (exampleEphemeris "SSB" "ECLIPJ2000" 1000 0);
          bodyWithEphemeris (exampleEphemeris "SSB" "J2000" 1 1)].

(** A lander about a station that has no ephemeris. *)
Definition landerMap : NamedBodyMap := [("Lander", 0); ("Station", 1)].
Definition landerHeap : Heap Z Z :=
  heapOf [bodyWithEphemeris (exampleEphemeris "Station" "ECLIPJ2000" 1 1);
          bodyWithoutModels].

(** Settings whose ephemeris is given about [origin]; the other domains
    are left out. *)
Definition settingsAbout (origin : string) : BodySettings unit :=
  {| atmosphereSettings := None;
     ephemerisSettings :=
       Some {| ephemerisFrameOrigin := origin;
               ephemerisFrameOrientation := "ECLIPJ2000" |};
     gravityFieldSettings := None;
     rotationModelSettings := None;
     shapeModelSettings := None;
     radiationPressureSettings := [];
     aerodynamicCoefficientSettings := None;
     gravityFieldVariationSettings := [] |}.

(** Earth about the Sun, the Moon about Earth, the Sun about the
    barycentre, which is no body of the set. *)
Definition solarSettings : SettingsMap unit :=
  [("Earth", settingsAbout "Sun");
   ("Moon", settingsAbout "Earth");
   ("Sun", settingsAbout "SSB")].

(** A and B, each about the other. *)
Definition cyclicSettings : SettingsMap unit :=
  [("A", settingsAbout "B"); ("B", settingsAbout "A")].

(** Every in-set dependency edge goes down in [rank]: a decidable
    certificate of acyclicity. *)
Definition edgesDecrease {DomainSettings : Type} (rank : string -> nat)
    (m : SettingsMap DomainSettings) : bool :=
  forallb (fun entry =>
             forallb (fun o => negb (mem o (keys m))
                               || Nat.ltb (rank o) (rank (fst entry)))
                     (declaredOrigins (snd entry)))
          m.

Unset Implicit Arguments.

(** * Proofs: the frame consistency pass *)

Section GlobalFrameFacts.

Variable Time : Type.
Variable Scalar : Type.
Variable sadd : Scalar -> Scalar -> Scalar.

Section PassFacts.

Variable S_ T_ : CppType.
Variable bm : NamedBodyMap.
Variable gO gOr : string.

Local Abbreviation attach' := (attach (Time:=Time) (Scalar:=Scalar) S_ T_ bm gO).
Local Abbreviation attachAll' := (attachAll (Time:=Time) (Scalar:=Scalar) S_ T_ bm gO).
Local Abbreviation attachTo' := (attachTo (Time:=Time) (Scalar:=Scalar) S_ T_ bm gO).
Local Abbreviation adapterFor' := (adapterFor (Time:=Time) (Scalar:=Scalar) S_ T_ bm gO).
Local Abbreviation firstError' := (firstError (Time:=Time) (Scalar:=Scalar) bm gO gOr).
Local Abbreviation iterate' := (iterate (Time:=Time) (Scalar:=Scalar) S_ T_ bm gO gOr).

Lemma find_None_count {A : Type} (m : list (string * A)) (k : string) :
  find m k = None <-> count m k = 0.
Proof.
  unfold count. destruct (find m k); split; intro H; try discriminate; auto.
Qed.

Lemma find_Some_In {A : Type} (m : list (string * A)) (k : string) (v : A) :
  find m k = Some v -> In (k, v) m.
Proof.
  induction m as [|[k' v'] m IH]; simpl; [discriminate|].
  destruct (String.eqb k' k) eqn:E.
  - apply String.eqb_eq in E. intro H. inversion H. subst. now left.
  - intro H. right. auto.
Qed.

Lemma find_None_keys {A : Type} (m : list (string * A)) (k : string) :
  find m k = None <-> ~ In k (keys m).
Proof.
  induction m as [|[k' v'] m IH]; simpl.
  - split; auto.
  - destruct (String.eqb k' k) eqn:E.
    + apply String.eqb_eq in E. split; [discriminate|]. intro H. exfalso. auto.
    + apply String.eqb_neq in E. rewrite IH. tauto.
Qed.


Lemma attach_getEphemeris (h : Heap Time Scalar) (l l' : loc) :
  getEphemeris (attach' h l l') = getEphemeris (h l').
Proof.
  unfold attach. destruct (adapterFor' (h l)); auto.
  unfold update. destruct (Nat.eqb l' l) eqn:E; auto.
  apply Nat.eqb_eq in E. now subst.
Qed.

Lemma attach_getRotationalEphemeris (h : Heap Time Scalar) (l l' : loc) :
  getRotationalEphemeris (attach' h l l') = getRotationalEphemeris (h l').
Proof.
  unfold attach. destruct (adapterFor' (h l)); auto.
  unfold update. destruct (Nat.eqb l' l) eqn:E; auto.
  apply Nat.eqb_eq in E. now subst.
Qed.

Lemma checkEphemeris_run (name : string) (l : loc) (h : Heap Time Scalar) :
  checkEphemeris S_ T_ bm gO gOr name l h =
  match ephemerisError bm gO gOr name (h l) with
  | None => (Returned tt, attach' h l)
  | Some e => (Thrown e, heapAtThrow S_ T_ bm gO e h l)
  end.
Proof.
  unfold checkEphemeris, bind, deref, ephemerisError, attach, adapterFor,
    setEphemerisFrameToBaseFrame, ret, throw, count.
  destruct (getEphemeris (h l)) as [eph|] eqn:Heph; [|reflexivity].
  destruct (String.eqb (getReferenceFrameOrigin eph) gO) eqn:Eo; cbn.
  - destruct (String.eqb (getReferenceFrameOrientation eph) gOr); cbn;
      [reflexivity|].
    unfold attach, adapterFor. now rewrite Heph, Eo.
  - destruct (find bm (getReferenceFrameOrigin eph)) as [lo|] eqn:Hf; cbn;
      [|reflexivity].
    destruct (String.eqb (getReferenceFrameOrientation eph) gOr); cbn;
      [now rewrite Heph|].
    unfold attach, adapterFor. now rewrite Heph, Eo, Hf.
Qed.

Lemma checkRotationalEphemeris_run (name : string) (l : loc)
    (h : Heap Time Scalar) :
  checkRotationalEphemeris gOr name l h =
  match rotationError gOr name (h l) with
  | None => (Returned tt, h)
  | Some e => (Thrown e, h)
  end.
Proof.
  unfold checkRotationalEphemeris, bind, deref, rotationError, ret, throw.
  destruct (getRotationalEphemeris (h l)) as [rot|]; [|reflexivity].
  now destruct (String.eqb (getBaseFrameOrientation rot) gOr).
Qed.

Lemma rotationError_attach (name : string) (h : Heap Time Scalar) (l : loc) :
  rotationError gOr name (attach' h l l) = rotationError gOr name (h l).
Proof.
  unfold rotationError. now rewrite attach_getRotationalEphemeris.
Qed.


(** One round of the loop, in terms of [firstError] and [attach]. *)
Lemma iterate_cons (name : string) (l : loc) (rest : NamedBodyMap)
    (h : Heap Time Scalar) :
  iterate' ((name, l) :: rest) h =
  match firstError' name (h l) with
  | None => iterate' rest (attach' h l)
  | Some e => (Thrown e, heapAtThrow S_ T_ bm gO e h l)
  end.
Proof.
  cbn [iterate]. unfold bind at 1. rewrite checkEphemeris_run.
  unfold firstError.
  destruct (ephemerisError bm gO gOr name (h l)) as [e|] eqn:He;
    [reflexivity|].
  unfold bind at 1. rewrite checkRotationalEphemeris_run.
  rewrite rotationError_attach.
  destruct (rotationError gOr name (h l)) as [e|] eqn:Hr; [|reflexivity].
  unfold rotationError in Hr.
  destruct (getRotationalEphemeris (h l)); [|discriminate].
  destruct (String.eqb _ _); [discriminate|].
  now injection Hr as <-.
Qed.

Lemma adapterFor_ext (b b' : Body Time Scalar) :
  getEphemeris b = getEphemeris b' -> adapterFor' b = adapterFor' b'.
Proof. unfold adapterFor. now intros ->. Qed.

Lemma firstError_ext (name : string) (b b' : Body Time Scalar) :
  getEphemeris b = getEphemeris b' ->
  getRotationalEphemeris b = getRotationalEphemeris b' ->
  firstError' name b = firstError' name b'.
Proof.
  unfold firstError, ephemerisError, rotationError. now intros -> ->.
Qed.

Lemma attachTo_getEphemeris (b : Body Time Scalar) :
  getEphemeris (attachTo' b) = getEphemeris b.
Proof. unfold attachTo. now destruct (adapterFor' b). Qed.

Lemma attachTo_getRotationalEphemeris (b : Body Time Scalar) :
  getRotationalEphemeris (attachTo' b) = getRotationalEphemeris b.
Proof. unfold attachTo. now destruct (adapterFor' b). Qed.

Lemma attachTo_idempotent (b : Body Time Scalar) :
  attachTo' (attachTo' b) = attachTo' b.
Proof.
  unfold attachTo at 1.
  rewrite (adapterFor_ext (attachTo' b) b (attachTo_getEphemeris b)).
  rewrite attachTo_getEphemeris, attachTo_getRotationalEphemeris.
  unfold attachTo. now destruct (adapterFor' b).
Qed.

Lemma attach_at (h : Heap Time Scalar) (l l' : loc) :
  attach' h l l' = if Nat.eqb l' l then attachTo' (h l') else h l'.
Proof.
  unfold attach, attachTo.
  destruct (Nat.eqb l' l) eqn:E.
  - apply Nat.eqb_eq in E. subst l'.
    destruct (adapterFor' (h l)); [|reflexivity].
    unfold update. now rewrite Nat.eqb_refl.
  - destruct (adapterFor' (h l)); [|reflexivity].
    unfold update. now rewrite E.
Qed.

Lemma attachAll_at (entries : NamedBodyMap) (h : Heap Time Scalar) (l' : loc) :
  attachAll' entries h l' =
  if pointsTo entries l' then attachTo' (h l') else h l'.
Proof.
  revert h. induction entries as [|[n l] rest IH]; intro h; [reflexivity|].
  change (attachAll' ((n, l) :: rest) h) with (attachAll' rest (attach' h l)).
  rewrite IH, attach_at. cbn [pointsTo existsb snd].
  fold (pointsTo rest l').
  rewrite (Nat.eqb_sym l l').
  destruct (Nat.eqb l' l); cbn; destruct (pointsTo rest l'); auto.
  apply attachTo_idempotent.
Qed.

Lemma attachAll_getEphemeris (entries : NamedBodyMap) (h : Heap Time Scalar)
    (l' : loc) :
  getEphemeris (attachAll' entries h l') = getEphemeris (h l').
Proof.
  rewrite attachAll_at. destruct (pointsTo entries l'); auto.
  apply attachTo_getEphemeris.
Qed.

Lemma attachAll_getRotationalEphemeris (entries : NamedBodyMap)
    (h : Heap Time Scalar) (l' : loc) :
  getRotationalEphemeris (attachAll' entries h l') =
  getRotationalEphemeris (h l').
Proof.
  rewrite attachAll_at. destruct (pointsTo entries l'); auto.
  apply attachTo_getRotationalEphemeris.
Qed.

Lemma firstError_attach (name : string) (h : Heap Time Scalar) (l l' : loc) :
  firstError' name (attach' h l l') = firstError' name (h l').
Proof.
  apply firstError_ext;
    [apply attach_getEphemeris | apply attach_getRotationalEphemeris].
Qed.


Lemma attachAll_app (pre post : NamedBodyMap) (h : Heap Time Scalar) :
  attachAll' (pre ++ post) h = attachAll' post (attachAll' pre h).
Proof. unfold attachAll. apply fold_left_app. Qed.

(** A run over entries that all pass their checks returns, with every
    adapter attached. *)
Lemma iterate_all_pass (entries : NamedBodyMap) (h : Heap Time Scalar) :
  (forall name l, In (name, l) entries -> firstError' name (h l) = None) ->
  iterate' entries h = (Returned tt, attachAll' entries h).
Proof.
  revert h. induction entries as [|[n l] rest IH]; intros h Hall;
    [reflexivity|].
  rewrite iterate_cons, (Hall n l (or_introl eq_refl)).
  change (attachAll' ((n, l) :: rest) h) with (attachAll' rest (attach' h l)).
  apply IH. intros name l' Hin. rewrite firstError_attach.
  apply Hall. now right.
Qed.

(** A run throws at the first entry that fails a check. *)
Lemma iterate_first_failure (pre post : NamedBodyMap) (name : string)
    (l : loc) (e : runtime_error) (h : Heap Time Scalar) :
  (forall name' l', In (name', l') pre -> firstError' name' (h l') = None) ->
  firstError' name (h l) = Some e ->
  iterate' (pre ++ (name, l) :: post) h =
  (Thrown e, heapAtThrow S_ T_ bm gO e (attachAll' pre h) l).
Proof.
  revert h. induction pre as [|[n0 l0] pre IH]; intros h Hpre He.
  - cbn [app]. now rewrite iterate_cons, He.
  - cbn [app]. rewrite iterate_cons, (Hpre n0 l0 (or_introl eq_refl)).
    change (attachAll' ((n0, l0) :: pre) h)
      with (attachAll' pre (attach' h l0)).
    apply IH.
    + intros name' l' Hin. rewrite firstError_attach. apply Hpre. now right.
    + now rewrite firstError_attach.
Qed.

(** Every sequence either passes all checks or has a first failing
    entry. *)
Lemma first_failure_exists (entries : NamedBodyMap) (h : Heap Time Scalar) :
  (forall name l, In (name, l) entries -> firstError' name (h l) = None) \/
  (exists pre name l post e,
     entries = pre ++ (name, l) :: post /\
     (forall name' l', In (name', l') pre ->
        firstError' name' (h l') = None) /\
     firstError' name (h l) = Some e).
Proof.
  induction entries as [|[n l] rest IH].
  - left. intros ? ? [].
  - destruct (firstError' n (h l)) as [e|] eqn:He.
    + right. exists [], n, l, rest, e. repeat split; auto. intros ? ? [].
    + destruct IH as [IH|(pre & name & l' & post & e & -> & Hpre & Hfail)].
      * left. intros name l' [H|H]; [now inversion H; subst|auto].
      * right. exists ((n, l) :: pre), name, l', post, e.
        repeat split; auto.
        intros name' l'' [H|H]; [now inversion H; subst|auto].
Qed.

Lemma rotationError_None (name : string) (b : Body Time Scalar) :
  rotationError gOr name b = None <->
  (forall rot, getRotationalEphemeris b = Some rot ->
     getBaseFrameOrientation rot = gOr).
Proof.
  unfold rotationError. destruct (getRotationalEphemeris b) as [rot|].
  - destruct (String.eqb (getBaseFrameOrientation rot) gOr) eqn:E.
    + apply String.eqb_eq in E. split; auto. now intros _ r [= <-].
    + apply String.eqb_neq in E. split; [discriminate|].
      intro H. now specialize (H rot eq_refl).
  - split; auto. discriminate.
Qed.

Lemma ephemerisError_None (name : string) (b : Body Time Scalar) :
  ephemerisError bm gO gOr name b = None <->
  (forall eph, getEphemeris b = Some eph ->
     (getReferenceFrameOrigin eph = gO \/
      In (getReferenceFrameOrigin eph) (keys bm)) /\
     getReferenceFrameOrientation eph = gOr).
Proof.
  unfold ephemerisError. destruct (getEphemeris b) as [eph|].
  2:{ split; auto. discriminate. }
  destruct (String.eqb (getReferenceFrameOrigin eph) gO) eqn:Eo; cbn.
  - apply String.eqb_eq in Eo.
    destruct (String.eqb (getReferenceFrameOrientation eph) gOr) eqn:Eor.
    + apply String.eqb_eq in Eor. split; auto. intros _ e' [= <-]. auto.
    + apply String.eqb_neq in Eor. split; [discriminate|].
      intro H. now destruct (H eph eq_refl).
  - apply String.eqb_neq in Eo.
    destruct (Nat.eqb (count bm (getReferenceFrameOrigin eph)) 0) eqn:Ec.
    + apply Nat.eqb_eq in Ec.
      rewrite <- find_None_count, find_None_keys in Ec.
      split; [discriminate|]. intro H.
      destruct (H eph eq_refl) as [[H1|H1] _]; contradiction.
    + apply Nat.eqb_neq in Ec.
      rewrite <- find_None_count, find_None_keys in Ec.
      assert (Hin : In (getReferenceFrameOrigin eph) (keys bm)).
      { destruct (in_dec string_dec (getReferenceFrameOrigin eph) (keys bm));
          tauto. }
      destruct (String.eqb (getReferenceFrameOrientation eph) gOr) eqn:Eor.
      * apply String.eqb_eq in Eor. split; auto. intros _ e' [= <-]. auto.
      * apply String.eqb_neq in Eor. split; [discriminate|].
        intro H. now destruct (H eph eq_refl).
Qed.

Lemma firstError_None (name : string) (b : Body Time Scalar) :
  firstError' name b = None <-> frameConsistent bm gO gOr b.
Proof.
  unfold firstError, frameConsistent.
  rewrite <- ephemerisError_None with (name := name).
  rewrite <- rotationError_None with (name := name).
  destruct (ephemerisError bm gO gOr name b); split.
  - discriminate.
  - intros [H _]. discriminate.
  - auto.
  - tauto.
Qed.

(** Whatever the outcome, a run changes a body only by attaching the
    adapter of its declared origin. *)
Lemma iterate_finalHeap (entries : NamedBodyMap) (h : Heap Time Scalar)
    (l : loc) :
  finalHeap (iterate' entries h) l = h l \/
  finalHeap (iterate' entries h) l = attachTo' (h l).
Proof.
  destruct (first_failure_exists entries h)
    as [Hall|(pre & name & l0 & post & e & -> & Hpre & Hfail)].
  - rewrite iterate_all_pass by assumption. cbn. rewrite attachAll_at.
    destruct (pointsTo entries l); auto.
  - rewrite (iterate_first_failure pre post name l0 e h Hpre Hfail). cbn.
    destruct e; cbn.
    + rewrite attachAll_at. destruct (pointsTo pre l); auto.
    + rewrite attach_at, attachAll_at.
      destruct (Nat.eqb l l0); destruct (pointsTo pre l); auto.
      right. apply attachTo_idempotent.
Qed.

Lemma iterate_returns_iff (entries : NamedBodyMap) (h : Heap Time Scalar) :
  outcome (iterate' entries h) = Returned tt <->
  (forall name l, In (name, l) entries -> firstError' name (h l) = None).
Proof.
  split.
  - intros Hret.
    destruct (first_failure_exists entries h)
      as [Hall|(pre & name & l0 & post & e & -> & Hpre & Hfail)]; auto.
    rewrite (iterate_first_failure pre post name l0 e h Hpre Hfail) in Hret.
    discriminate.
  - intro Hall. now rewrite iterate_all_pass.
Qed.

(** An entry that passes its checks and gets no adapter can be skipped. *)
Lemma iterate_skip (pre post : NamedBodyMap) (name : string) (l : loc)
    (h : Heap Time Scalar) :
  firstError' name (h l) = None ->
  adapterFor' (h l) = None ->
  iterate' (pre ++ (name, l) :: post) h = iterate' (pre ++ post) h.
Proof.
  revert h. induction pre as [|[n0 l0] pre IH]; intros h He Ha; cbn [app].
  - rewrite iterate_cons, He. unfold attach. now rewrite Ha.
  - rewrite !iterate_cons.
    destruct (firstError' n0 (h l0)); [reflexivity|].
    apply IH.
    + now rewrite firstError_attach.
    + rewrite <- Ha. apply adapterFor_ext, attach_getEphemeris.
Qed.

Lemma firstError_missing (name : string) (b : Body Time Scalar)
    (eph : Ephemeris Time Scalar) :
  getEphemeris b = Some eph ->
  getReferenceFrameOrigin eph <> gO ->
  ~ In (getReferenceFrameOrigin eph) (keys bm) ->
  firstError' name b =
  Some (MissingFrameOrigin name (getReferenceFrameOrigin eph) gO).
Proof.
  intros Heph Ho Hk. unfold firstError, ephemerisError. rewrite Heph.
  apply String.eqb_neq in Ho. rewrite Ho.
  apply find_None_keys, find_None_count in Hk. now rewrite Hk.
Qed.

Lemma firstError_ephemeris_orientation (name : string) (b : Body Time Scalar)
    (eph : Ephemeris Time Scalar) :
  getEphemeris b = Some eph ->
  getReferenceFrameOrigin eph = gO \/
  In (getReferenceFrameOrigin eph) (keys bm) ->
  getReferenceFrameOrientation eph <> gOr ->
  firstError' name b =
  Some (FrameOrientationMismatch ofEphemeris name
          (getReferenceFrameOrientation eph) gOr).
Proof.
  intros Heph Ho Hor. unfold firstError, ephemerisError. rewrite Heph.
  apply String.eqb_neq in Hor. rewrite Hor.
  destruct Ho as [Ho|Ho].
  - apply String.eqb_eq in Ho. now rewrite Ho.
  - destruct (Nat.eqb (count bm (getReferenceFrameOrigin eph)) 0) eqn:Ec.
    + apply Nat.eqb_eq, find_None_count, find_None_keys in Ec. contradiction.
    + now rewrite andb_false_r.
Qed.

Lemma firstError_rotation_orientation (name : string) (b : Body Time Scalar)
    (rot : RotationalEphemeris) :
  (forall eph, getEphemeris b = Some eph ->
     (getReferenceFrameOrigin eph = gO \/
      In (getReferenceFrameOrigin eph) (keys bm)) /\
     getReferenceFrameOrientation eph = gOr) ->
  getRotationalEphemeris b = Some rot ->
  getBaseFrameOrientation rot <> gOr ->
  firstError' name b =
  Some (FrameOrientationMismatch ofRotationModel name
          (getBaseFrameOrientation rot) gOr).
Proof.
  intros Heph Hrot Hor. unfold firstError.
  apply (ephemerisError_None name) in Heph. rewrite Heph.
  unfold rotationError. rewrite Hrot.
  apply String.eqb_neq in Hor. now rewrite Hor.
Qed.

Lemma adapterFor_Some (b : Body Time Scalar) (a : BaseStateInterface) :
  adapterFor' b = Some a ->
  exists eph originBody,
    getEphemeris b = Some eph /\
    getReferenceFrameOrigin eph <> gO /\
    find bm (getReferenceFrameOrigin eph) = Some originBody /\
    a = makeBaseStateInterface S_ T_ (getReferenceFrameOrigin eph) originBody.
Proof.
  unfold adapterFor. destruct (getEphemeris b) as [eph|]; [|discriminate].
  destruct (String.eqb (getReferenceFrameOrigin eph) gO) eqn:Eo;
    [discriminate|].
  destruct (find bm (getReferenceFrameOrigin eph)) as [lo|] eqn:Hf;
    [|discriminate].
  intros [= <-]. exists eph, lo. apply String.eqb_neq in Eo. auto.
Qed.

(** The round for an entry that the loop reaches, and whose origin check
    does not throw, attaches the adapter, and it stays. *)
Lemma iterate_visited (pre post : NamedBodyMap) (name : string) (l : loc)
    (h : Heap Time Scalar) :
  (forall name' l', In (name', l') pre -> firstError' name' (h l') = None) ->
  (forall n o g, firstError' name (h l) <> Some (MissingFrameOrigin n o g)) ->
  finalHeap (iterate' (pre ++ (name, l) :: post) h) l = attachTo' (h l).
Proof.
  revert h. induction pre as [|[n0 l0] pre IH]; intros h Hpre Hnm; cbn [app].
  - rewrite iterate_cons.
    destruct (firstError' name (h l)) as [e|] eqn:He.
    + destruct e as [n o g|src n o g]; [now destruct (Hnm n o g)|].
      cbn. rewrite attach_at. now rewrite Nat.eqb_refl.
    + destruct (iterate_finalHeap post (attach' h l) l) as [H|H]; rewrite H;
        rewrite attach_at, Nat.eqb_refl; auto using attachTo_idempotent.
  - rewrite iterate_cons, (Hpre n0 l0 (or_introl eq_refl)).
    rewrite IH.
    + rewrite attach_at. destruct (Nat.eqb l l0); auto using attachTo_idempotent.
    + intros name' l' Hin. rewrite firstError_attach. apply Hpre. now right.
    + intros n o g. rewrite firstError_attach. apply Hnm.
Qed.

Lemma firstError_not_missing (name : string) (b : Body Time Scalar)
    (eph : Ephemeris Time Scalar) (originBody : loc) :
  getEphemeris b = Some eph ->
  find bm (getReferenceFrameOrigin eph) = Some originBody ->
  forall n o g, firstError' name b <> Some (MissingFrameOrigin n o g).
Proof.
  intros Heph Hf n o g. unfold firstError, ephemerisError, rotationError, count.
  rewrite Heph, Hf. cbn. rewrite andb_false_r.
  destruct (String.eqb (getReferenceFrameOrientation eph) gOr);
    [|discriminate].
  destruct (getRotationalEphemeris b) as [rot|]; [|discriminate].
  destruct (String.eqb (getBaseFrameOrientation rot) gOr); discriminate.
Qed.

Lemma pointsTo_Permutation (order1 order2 : NamedBodyMap) (l : loc) :
  Permutation order1 order2 -> pointsTo order1 l = pointsTo order2 l.
Proof.
  intro Hp. unfold pointsTo.
  destruct (existsb (fun entry => Nat.eqb (snd entry) l) order2) eqn:E2.
  - apply existsb_exists in E2. destruct E2 as (x & Hin & Hx).
    apply existsb_exists. exists x. split; auto.
    apply Permutation_in with order2; auto using Permutation_sym.
  - destruct (existsb (fun entry => Nat.eqb (snd entry) l) order1) eqn:E1;
      auto.
    apply existsb_exists in E1. destruct E1 as (x & Hin & Hx).
    rewrite <- E2. symmetry. apply existsb_exists. exists x. split; auto.
    apply Permutation_in with order1; auto.
Qed.

End PassFacts.

(** ** The state query *)

Lemma getState_ext (h1 h2 : Heap Time Scalar) :
  (forall l, h1 l = h2 l) ->
  forall fuel l t,
    getStateInBaseFrameFromEphemeris sadd fuel h1 l t =
    getStateInBaseFrameFromEphemeris sadd fuel h2 l t.
Proof.
  intros Heq fuel. induction fuel as [|fuel IH]; intros l t; cbn;
    [reflexivity|].
  rewrite Heq. destruct (getEphemeris (h2 l)); auto.
  destruct (ephemerisFrameToBaseFrame (h2 l)); auto.
  now rewrite IH.
Qed.

Lemma getState_S (h : Heap Time Scalar) (fuel : nat) (l : loc) (t : Time) :
  getStateInBaseFrameFromEphemeris sadd (S fuel) h l t =
  match getEphemeris (h l) with
  | None => None
  | Some eph =>
      match ephemerisFrameToBaseFrame (h l) with
      | None => Some (getCartesianState eph t)
      | Some a =>
          match getStateInBaseFrameFromEphemeris sadd fuel h
                  (boundBody (stateFunction a)) t with
          | None => None
          | Some s => Some (vadd sadd (getCartesianState eph t) s)
          end
      end
  end.
Proof. reflexivity. Qed.

Lemma getState_more_fuel (h : Heap Time Scalar) (fuel : nat) :
  forall l t s,
    getStateInBaseFrameFromEphemeris sadd fuel h l t = Some s ->
    getStateInBaseFrameFromEphemeris sadd (S fuel) h l t = Some s.
Proof.
  induction fuel as [|fuel IH]; intros l t s; [discriminate|].
  intro H. rewrite getState_S in H. rewrite getState_S.
  destruct (getEphemeris (h l)) as [eph|]; [|discriminate].
  destruct (ephemerisFrameToBaseFrame (h l)) as [a|]; [|assumption].
  destruct (getStateInBaseFrameFromEphemeris sadd fuel h
              (boundBody (stateFunction a)) t) as [s0|] eqn:E;
    [|discriminate].
  now rewrite (IH _ _ _ E).
Qed.

Lemma getState_enough_fuel (h : Heap Time Scalar) (fuel fuel' : nat)
    (l : loc) (t : Time) (s : Vector6 Scalar) :
  fuel <= fuel' ->
  getStateInBaseFrameFromEphemeris sadd fuel h l t = Some s ->
  getStateInBaseFrameFromEphemeris sadd fuel' h l t = Some s.
Proof.
  induction 1 as [|fuel' Hle IH]; auto.
  intro Hs. now apply getState_more_fuel, IH.
Qed.

(** The state query returns when the chain of adapters is finite. *)
Lemma getState_defined (h : Heap Time Scalar) (l : loc) (depth : nat) :
  StateDefined h l depth ->
  forall t, exists s,
    getStateInBaseFrameFromEphemeris sadd (S depth) h l t = Some s.
Proof.
  induction 1 as [l eph Heph Hslot|l eph a depth Heph Hslot _ IH]; intro t.
  - exists (getCartesianState eph t). cbn. now rewrite Heph, Hslot.
  - destruct (IH t) as [s Hs].
    exists (vadd sadd (getCartesianState eph t) s).
    rewrite getState_S. now rewrite Heph, Hslot, Hs.
Qed.

(** Conversely, a query that returns has gone through a finite chain. *)
Lemma getState_Some_defined (h : Heap Time Scalar) (fuel : nat) :
  forall l t s,
    getStateInBaseFrameFromEphemeris sadd fuel h l t = Some s ->
    exists depth, depth < fuel /\ StateDefined h l depth.
Proof.
  induction fuel as [|fuel IH]; intros l t s; [discriminate|].
  rewrite getState_S.
  destruct (getEphemeris (h l)) as [eph|] eqn:Heph; [|discriminate].
  destruct (ephemerisFrameToBaseFrame (h l)) as [a|] eqn:Hslot.
  - destruct (getStateInBaseFrameFromEphemeris sadd fuel h
                (boundBody (stateFunction a)) t) as [s0|] eqn:E;
      [|discriminate].
    intros _. destruct (IH _ _ _ E) as (depth & Hlt & Hd).
    exists (S depth). split; [lia|]. eapply StateDefined_step; eauto.
  - intros _. exists 0. split; [lia|]. eapply StateDefined_root; eauto.
Qed.

(** ** The claims about the pass *)

(** C1 (as amended).  [setGlobalFrameBodyEphemerides] returns normally if
    and only if every body of the map is frame consistent: an ephemeris
    declares an origin that is the global origin or a key of the map, and
    the global orientation; a rotational ephemeris declares the global
    orientation as its base frame.  A body whose declared origin differs
    from the global origin and is no key of the map makes the call throw
    MissingFrameOrigin with the body and the origin, provided every body
    visited before it is frame consistent (the call reports the first
    failure it meets). *)
Theorem enforceGlobalFrame_succeeds_iff_consistent
    (S_ T_ : CppType) (bm : NamedBodyMap) (gO gOr : string)
    (h : Heap Time Scalar) :
  (outcome (setGlobalFrameBodyEphemerides S_ T_ bm gO gOr h) = Returned tt <->
   forall name l, In (name, l) bm -> frameConsistent bm gO gOr (h l)) /\
  (forall pre name l post eph,
     bm = pre ++ (name, l) :: post ->
     (forall name' l', In (name', l') pre ->
        frameConsistent bm gO gOr (h l')) ->
     getEphemeris (h l) = Some eph ->
     getReferenceFrameOrigin eph <> gO ->
     ~ In (getReferenceFrameOrigin eph) (keys bm) ->
     outcome (setGlobalFrameBodyEphemerides S_ T_ bm gO gOr h) =
     Thrown (MissingFrameOrigin name (getReferenceFrameOrigin eph) gO)).
Proof.
  unfold setGlobalFrameBodyEphemerides. split.
  - rewrite iterate_returns_iff. split; intros H name l Hin.
    + apply (firstError_None bm gO gOr name), H, Hin.
    + apply firstError_None, (H name), Hin.
  - intros pre name l post eph Hbm Hpre Heph Ho Hk.
    rewrite Hbm at 2.
    rewrite (iterate_first_failure S_ T_ bm gO gOr pre post name l
               (MissingFrameOrigin name (getReferenceFrameOrigin eph) gO)).
    + reflexivity.
    + intros name' l' Hin. apply firstError_None. eauto.
    + now apply firstError_missing.
Qed.

(** C3 (as amended).  A body whose ephemeris orientation, or whose
    rotational ephemeris base frame orientation, differs from the global
    orientation makes the call throw.  The exception is
    FrameOrientationMismatch with the body and both orientation strings
    when no check before that one fails: the bodies visited earlier are
    frame consistent, the body's own origin check passes and, for the
    rotational ephemeris, its ephemeris checks pass.  No adapter is attached
    because of an orientation: whatever the input, a body is left as it was
    or has received the translation adapter of its declared origin, which
    differs from the global origin. *)
Theorem enforceGlobalFrame_orientation_mismatch
    (S_ T_ : CppType) (bm : NamedBodyMap) (gO gOr : string)
    (h : Heap Time Scalar) :
  let run := setGlobalFrameBodyEphemerides S_ T_ bm gO gOr h in
  (forall name l,
     In (name, l) bm ->
     (exists eph, getEphemeris (h l) = Some eph /\
                  getReferenceFrameOrientation eph <> gOr) \/
     (exists rot, getRotationalEphemeris (h l) = Some rot /\
                  getBaseFrameOrientation rot <> gOr) ->
     exists e, outcome run = Thrown e) /\
  (forall pre name l post eph,
     bm = pre ++ (name, l) :: post ->
     (forall name' l', In (name', l') pre ->
        frameConsistent bm gO gOr (h l')) ->
     getEphemeris (h l) = Some eph ->
     getReferenceFrameOrigin eph = gO \/
     In (getReferenceFrameOrigin eph) (keys bm) ->
     getReferenceFrameOrientation eph <> gOr ->
     outcome run =
     Thrown (FrameOrientationMismatch ofEphemeris name
               (getReferenceFrameOrientation eph) gOr)) /\
  (forall pre name l post rot,
     bm = pre ++ (name, l) :: post ->
     (forall name' l', In (name', l') pre ->
        frameConsistent bm gO gOr (h l')) ->
     (forall eph, getEphemeris (h l) = Some eph ->
        (getReferenceFrameOrigin eph = gO \/
         In (getReferenceFrameOrigin eph) (keys bm)) /\
        getReferenceFrameOrientation eph = gOr) ->
     getRotationalEphemeris (h l) = Some rot ->
     getBaseFrameOrientation rot <> gOr ->
     outcome run =
     Thrown (FrameOrientationMismatch ofRotationModel name
               (getBaseFrameOrientation rot) gOr)) /\
  (forall l,
     finalHeap run l = h l \/
     exists eph originBody,
       getEphemeris (h l) = Some eph /\
       getReferenceFrameOrigin eph <> gO /\
       find bm (getReferenceFrameOrigin eph) = Some originBody /\
       finalHeap run l =
       {| getEphemeris := getEphemeris (h l);
          getRotationalEphemeris := getRotationalEphemeris (h l);
          ephemerisFrameToBaseFrame :=
            Some (makeBaseStateInterface S_ T_
                    (getReferenceFrameOrigin eph) originBody) |}).
Proof.
  unfold setGlobalFrameBodyEphemerides. cbv zeta. repeat split.
  - intros name l Hin Hmis.
    destruct (outcome (iterate S_ T_ bm gO gOr bm h)) as [[]|e] eqn:Hout;
      [|now exists e].
    exfalso.
    pose proof (proj1 (iterate_returns_iff S_ T_ bm gO gOr bm h) Hout name l Hin)
      as Hnone.
    apply firstError_None in Hnone.
    destruct Hnone as [Heph Hrot].
    destruct Hmis as [(eph & He & Hne)|(rot & Hr & Hne)].
    + now destruct (Heph eph He).
    + now apply Hne, Hrot.
  - intros pre name l post eph Hbm Hpre Heph Ho Hor. rewrite Hbm at 2.
    rewrite (iterate_first_failure S_ T_ bm gO gOr pre post name l
               (FrameOrientationMismatch ofEphemeris name
                  (getReferenceFrameOrientation eph) gOr)).
    + reflexivity.
    + intros name' l' Hin. apply firstError_None. eauto.
    + now apply firstError_ephemeris_orientation.
  - intros pre name l post rot Hbm Hpre Heph Hrot Hor. rewrite Hbm at 2.
    rewrite (iterate_first_failure S_ T_ bm gO gOr pre post name l
               (FrameOrientationMismatch ofRotationModel name
                  (getBaseFrameOrientation rot) gOr)).
    + reflexivity.
    + intros name' l' Hin. apply firstError_None. eauto.
    + now apply firstError_rotation_orientation.
  - intro l. destruct (iterate_finalHeap S_ T_ bm gO gOr bm h l) as [H|H];
      [now left|].
    unfold attachTo in H.
    destruct (adapterFor S_ T_ bm gO (h l)) as [a|] eqn:Ha; [|now left].
    right. apply adapterFor_Some in Ha.
    destruct Ha as (eph & lo & Heph & Ho & Hf & ->).
    exists eph, lo. auto.
Qed.

(** C6 (as amended).  When the call throws, the bodies visited before the
    failing check keep the adapters attached to them, and so does the
    failing body itself when it is an orientation check that fails; every
    other body is as it was.  The entries before the failing one are frame
    consistent and the failing one is not. *)
Theorem enforceGlobalFrame_failure_keeps_attached_adapters
    (S_ T_ : CppType) (bm : NamedBodyMap) (gO gOr : string)
    (h : Heap Time Scalar) (e : runtime_error) :
  outcome (setGlobalFrameBodyEphemerides S_ T_ bm gO gOr h) = Thrown e ->
  exists pre name l post,
    bm = pre ++ (name, l) :: post /\
    (forall name' l', In (name', l') pre ->
       frameConsistent bm gO gOr (h l')) /\
    ~ frameConsistent bm gO gOr (h l) /\
    let visited :=
      match e with
      | MissingFrameOrigin _ _ _ => pre
      | FrameOrientationMismatch _ _ _ _ => pre ++ [(name, l)]
      end in
    forall l',
      finalHeap (setGlobalFrameBodyEphemerides S_ T_ bm gO gOr h) l' =
      if pointsTo visited l' then attachTo S_ T_ bm gO (h l') else h l'.
Proof.
  unfold setGlobalFrameBodyEphemerides. intro Hout.
  destruct (first_failure_exists bm gO gOr bm h)
    as [Hall|(pre & name & l & post & e0 & Hbm & Hpre & Hfail)].
  - apply (iterate_returns_iff S_ T_) in Hall. rewrite Hall in Hout.
    discriminate.
  - exists pre, name, l, post.
    pose proof (iterate_first_failure S_ T_ bm gO gOr pre post name l e0 h
                  Hpre Hfail) as Hrun.
    rewrite <- Hbm in Hrun. rewrite Hrun in Hout |- *.
    cbn in Hout. injection Hout as ->.
    split; [assumption|]. split; [|split].
    + intros n0 l0 Hin. apply (firstError_None bm gO gOr n0). auto.
    + intro Hc. apply (firstError_None bm gO gOr name) in Hc. congruence.
    + cbv zeta. intro l0. cbn [finalHeap snd]. destruct e; cbn [heapAtThrow].
      * apply attachAll_at.
      * rewrite <- attachAll_at, attachAll_app. reflexivity.
Qed.

(** C9.  A body of the map whose ephemeris declares the global origin and
    the global orientation is left unchanged by the call: no adapter is
    attached to it. *)
Theorem enforceGlobalFrame_global_origin_noop
    (S_ T_ : CppType) (bm : NamedBodyMap) (gO gOr : string)
    (h : Heap Time Scalar) (name : string) (l : loc)
    (eph : Ephemeris Time Scalar) :
  In (name, l) bm ->
  getEphemeris (h l) = Some eph ->
  getReferenceFrameOrigin eph = gO ->
  getReferenceFrameOrientation eph = gOr ->
  finalHeap (setGlobalFrameBodyEphemerides S_ T_ bm gO gOr h) l = h l /\
  ephemerisFrameToBaseFrame
    (finalHeap (setGlobalFrameBodyEphemerides S_ T_ bm gO gOr h) l) =
  ephemerisFrameToBaseFrame (h l).
Proof.
  intros _ Heph Ho _. unfold setGlobalFrameBodyEphemerides.
  assert (Hsame : attachTo S_ T_ bm gO (h l) = h l).
  { unfold attachTo, adapterFor. rewrite Heph.
    apply String.eqb_eq in Ho. now rewrite Ho. }
  destruct (iterate_finalHeap S_ T_ bm gO gOr bm h l) as [H|H]; rewrite H;
    rewrite ?Hsame; auto.
Qed.

(** C10.  A body of the map with neither an ephemeris nor a rotational
    ephemeris is left unchanged, and the loop round for it checks nothing:
    the call has the same outcome and the same final heap as the loop run
    without that entry (the body stays a key of the map), whatever the
    global origin and orientation are. *)
Theorem enforceGlobalFrame_body_without_models
    (S_ T_ : CppType) (bm : NamedBodyMap) (gO gOr : string)
    (h : Heap Time Scalar) (pre post : NamedBodyMap)
    (name : string) (l : loc) :
  bm = pre ++ (name, l) :: post ->
  getEphemeris (h l) = None ->
  getRotationalEphemeris (h l) = None ->
  finalHeap (setGlobalFrameBodyEphemerides S_ T_ bm gO gOr h) l = h l /\
  setGlobalFrameBodyEphemerides S_ T_ bm gO gOr h =
  iterate S_ T_ bm gO gOr (pre ++ post) h /\
  (forall e, outcome (setGlobalFrameBodyEphemerides S_ T_ bm gO gOr h)
             = Thrown e ->
     exists pre' name' l' post',
       pre ++ post = pre' ++ (name', l') :: post' /\
       firstError bm gO gOr name' (h l') = Some e).
Proof.
  intros Hbm Heph Hrot. unfold setGlobalFrameBodyEphemerides.
  assert (Ha : adapterFor S_ T_ bm gO (h l) = None)
    by (unfold adapterFor; now rewrite Heph).
  assert (He : firstError bm gO gOr name (h l) = None)
    by (unfold firstError, ephemerisError, rotationError;
        now rewrite Heph, Hrot).
  assert (Hskip : iterate S_ T_ bm gO gOr bm h =
                  iterate S_ T_ bm gO gOr (pre ++ post) h).
  { rewrite Hbm at 2. now apply iterate_skip. }
  repeat split.
  - destruct (iterate_finalHeap S_ T_ bm gO gOr bm h l) as [H|H]; rewrite H;
      auto.
    unfold attachTo. now rewrite Ha.
  - exact Hskip.
  - intros e Hout. rewrite Hskip in Hout.
    destruct (first_failure_exists bm gO gOr (pre ++ post) h)
      as [Hall|(pre' & name' & l' & post' & e0 & Hsplit & Hpre & Hfail)].
    + apply (iterate_returns_iff S_ T_) in Hall. rewrite Hall in Hout.
      discriminate.
    + exists pre', name', l', post'. split; auto.
      rewrite Hsplit in Hout.
      rewrite (iterate_first_failure S_ T_ bm gO gOr pre' post' name' l' e0 h
                 Hpre Hfail) in Hout.
      cbn in Hout. now injection Hout as ->.
Qed.

(** C7 (what the code does).  Whatever [StateScalarType] and [TimeType]
    the function is instantiated at, an adapter it attaches is a
    [BaseStateInterfaceImplementation< double, double >]; only the state
    function bound inside it is instantiated at the two template
    arguments. *)
Theorem enforceGlobalFrame_adapter_template_arguments
    (S_ T_ : CppType) (bm : NamedBodyMap) (gO gOr : string)
    (h : Heap Time Scalar) (l : loc) :
  finalHeap (setGlobalFrameBodyEphemerides S_ T_ bm gO gOr h) l <> h l ->
  exists a,
    ephemerisFrameToBaseFrame
      (finalHeap (setGlobalFrameBodyEphemerides S_ T_ bm gO gOr h) l) = Some a /\
    implementationArg1 a = cpp_double /\
    implementationArg2 a = cpp_double /\
    functionStateScalarType (stateFunction a) = S_ /\
    functionTimeType (stateFunction a) = T_.
Proof.
  unfold setGlobalFrameBodyEphemerides. intro Hchanged.
  destruct (iterate_finalHeap S_ T_ bm gO gOr bm h l) as [H|H];
    [contradiction|].
  rewrite H. unfold attachTo in *.
  destruct (adapterFor S_ T_ bm gO (h l)) as [a|] eqn:Ha.
  - exists a. apply adapterFor_Some in Ha.
    destruct Ha as (eph & lo & _ & _ & _ & ->). cbn. auto.
  - rewrite H in Hchanged. contradiction.
Qed.

(** C2 (as amended).  Let a body of the map have an ephemeris whose origin
    differs from the global origin and is a key of the map, and let every
    body visited before it be frame consistent, so that the loop reaches
    it.  Then the call leaves on the body a translation adapter named after
    the origin and bound to the origin body.  Invoking the adapter at a
    time is the state query of the origin body at that time, in the heap
    of the moment of the call: it goes through the origin body's ephemeris
    and any adapter attached to that body.  It returns a 6-component state
    whenever that query is defined, that is when the chain of adapters from
    the origin body is finite and every body on it has an ephemeris. *)
Theorem enforceGlobalFrame_attaches_translation_adapter
    (S_ T_ : CppType) (bm : NamedBodyMap) (gO gOr : string)
    (h : Heap Time Scalar) (pre post : NamedBodyMap)
    (name : string) (l : loc) (eph : Ephemeris Time Scalar)
    (originBody : loc) :
  bm = pre ++ (name, l) :: post ->
  (forall name' l', In (name', l') pre -> frameConsistent bm gO gOr (h l')) ->
  getEphemeris (h l) = Some eph ->
  getReferenceFrameOrigin eph <> gO ->
  find bm (getReferenceFrameOrigin eph) = Some originBody ->
  let h' := finalHeap (setGlobalFrameBodyEphemerides S_ T_ bm gO gOr h) in
  exists a,
    ephemerisFrameToBaseFrame (h' l) = Some a /\
    baseFrameId a = getReferenceFrameOrigin eph /\
    boundBody (stateFunction a) = originBody /\
    (forall (fuel : nat) (hq : Heap Time Scalar) (t : Time),
       getBaseFrameState sadd fuel hq a t =
       getStateInBaseFrameFromEphemeris sadd fuel hq originBody t) /\
    (forall depth t,
       StateDefined h' originBody depth ->
       exists s : Vector6 Scalar,
         forall fuel, depth < fuel ->
           getBaseFrameState sadd fuel h' a t = Some s /\
           getStateInBaseFrameFromEphemeris sadd fuel h' originBody t
           = Some s) /\
    (forall originEphemeris t,
       getEphemeris (h' originBody) = Some originEphemeris ->
       ephemerisFrameToBaseFrame (h' originBody) = None ->
       forall fuel, 0 < fuel ->
         getBaseFrameState sadd fuel h' a t =
         Some (getCartesianState originEphemeris t)).
Proof.
  intros Hbm Hpre Heph Ho Hf h'.
  exists (makeBaseStateInterface S_ T_ (getReferenceFrameOrigin eph) originBody).
  assert (Hl : h' l = attachTo S_ T_ bm gO (h l)).
  { unfold h', setGlobalFrameBodyEphemerides. rewrite Hbm at 2.
    apply iterate_visited.
    - intros name' l' Hin. apply firstError_None. eauto.
    - eapply firstError_not_missing; eauto. }
  repeat split.
  - rewrite Hl. unfold attachTo, adapterFor. rewrite Heph.
    apply String.eqb_neq in Ho. now rewrite Ho, Hf.
  - intros depth t Hd. destruct (getState_defined h' originBody depth Hd t)
      as [s Hs].
    exists s. intros fuel Hlt. unfold getBaseFrameState. cbn.
    assert (getStateInBaseFrameFromEphemeris sadd fuel h' originBody t
            = Some s)
      by (apply getState_enough_fuel with (S depth); [lia|assumption]).
    auto.
  - intros eo t Heo Hnone fuel Hfuel. unfold getBaseFrameState. cbn.
    destruct fuel as [|fuel]; [lia|].
    rewrite getState_S. now rewrite Heo, Hnone.
Qed.

(** C8 (as amended).  Take two processing orders of the same body map,
    and let the pass return normally on one of them.  Then it returns
    normally on the other, both leave the same bodies with the same
    adapters, and an adapter invoked at a time after either pass returns
    the same thing: the adapter reads the heap of the moment of the call,
    not a value captured when it was attached.  (When the pass throws, the
    bodies visited before the throw depend on the order, and so does what
    an adapter reads.) *)
Theorem adapter_value_independent_of_processing_order
    (S_ T_ : CppType) (bm : NamedBodyMap) (gO gOr : string)
    (order1 order2 : NamedBodyMap) (h : Heap Time Scalar) :
  Permutation bm order1 ->
  Permutation bm order2 ->
  outcome (iterate S_ T_ bm gO gOr order1 h) = Returned tt ->
  let h1 := finalHeap (iterate S_ T_ bm gO gOr order1 h) in
  let h2 := finalHeap (iterate S_ T_ bm gO gOr order2 h) in
  outcome (iterate S_ T_ bm gO gOr order2 h) = Returned tt /\
  (forall l, h2 l = h1 l) /\
  (forall l a,
     ephemerisFrameToBaseFrame (h1 l) = Some a ->
     ephemerisFrameToBaseFrame (h2 l) = Some a /\
     forall fuel t,
       getBaseFrameState sadd fuel h2 a t =
       getBaseFrameState sadd fuel h1 a t).
Proof.
  intros Hp1 Hp2 Hret h1 h2.
  assert (Hp : Permutation order1 order2)
    by (eapply Permutation_trans; [apply Permutation_sym|]; eassumption).
  pose proof (proj1 (iterate_returns_iff S_ T_ bm gO gOr order1 h) Hret)
    as Hall1.
  assert (Hall2 : forall name l, In (name, l) order2 ->
                    firstError bm gO gOr name (h l) = None).
  { intros name l Hin. apply Hall1.
    apply Permutation_in with order2; auto using Permutation_sym. }
  assert (Heq : forall l, h2 l = h1 l).
  { intro l. unfold h1, h2.
    rewrite (iterate_all_pass S_ T_ bm gO gOr order1 h Hall1).
    rewrite (iterate_all_pass S_ T_ bm gO gOr order2 h Hall2).
    cbn. rewrite !attachAll_at.
    now rewrite (pointsTo_Permutation order1 order2 l Hp). }
  split; [|split].
  - now apply iterate_returns_iff.
  - exact Heq.
  - intros l a Ha. split; [now rewrite Heq|].
    intros fuel t. unfold getBaseFrameState. now apply getState_ext.
Qed.

End GlobalFrameFacts.

(** * Proofs: the dependency order resolver *)

Section CreationOrderFacts.

Variable DomainSettings : Type.

Local Abbreviation Settings := (BodySettings DomainSettings).
Local Abbreviation SettingsSeq := (SettingsMap DomainSettings).

Lemma mem_In (x : string) (l : list string) : mem x l = true <-> In x l.
Proof.
  unfold mem. rewrite existsb_exists. split.
  - intros (y & Hin & Heq). apply String.eqb_eq in Heq. now subst.
  - intro Hin. exists x. split; auto. apply String.eqb_refl.
Qed.

Lemma mem_false (x : string) (l : list string) :
  mem x l = false <-> ~ In x l.
Proof.
  rewrite <- mem_In. destruct (mem x l); split; congruence.
Qed.

Lemma keys_app {A : Type} (l1 l2 : list (string * A)) :
  keys (l1 ++ l2) = keys l1 ++ keys l2.
Proof. apply map_app. Qed.

Lemma keys_In {A : Type} (m : list (string * A)) (k : string) (v : A) :
  In (k, v) m -> In k (keys m).
Proof. intro H. change k with (fst (k, v)). now apply in_map. Qed.

Lemma keys_In_inv {A : Type} (m : list (string * A)) (k : string) :
  In k (keys m) -> exists v, In (k, v) m.
Proof.
  unfold keys. rewrite in_map_iff. intros ([k' v] & Heq & Hin).
  cbn in Heq. subst. now exists v.
Qed.

Lemma index_In (x : string) (l : list string) :
  index x l < length l <-> In x l.
Proof.
  induction l as [|y l IH]; cbn.
  - split; [lia|tauto].
  - destruct (String.eqb y x) eqn:E.
    + apply String.eqb_eq in E. split; [auto|lia].
    + apply String.eqb_neq in E. rewrite <- IH. split.
      * intro H. right. lia.
      * intros [H|H]; [contradiction|lia].
Qed.

Lemma index_cons_other (x y : string) (l : list string) :
  y <> x -> index x (y :: l) = S (index x l).
Proof. intro H. cbn. apply String.eqb_neq in H. now rewrite H. Qed.

Lemma index_cons_same (x : string) (l : list string) :
  index x (x :: l) = 0.
Proof. cbn. now rewrite String.eqb_refl. Qed.

Lemma ready_true (names : list string) (s : Settings) :
  ready names s = true <->
  (forall o, In o (declaredOrigins s) -> ~ In o names).
Proof.
  unfold ready. rewrite forallb_forall. split; intros H o Hin.
  - apply mem_false. specialize (H o Hin). now destruct (mem o names).
  - apply H, mem_false in Hin. now rewrite Hin.
Qed.

Lemma blocker_Some (names : list string) (s : Settings) (o : string) :
  blocker names s = Some o -> In o (declaredOrigins s) /\ In o names.
Proof.
  unfold blocker. intro H. apply find_some in H.
  destruct H as [Hin Hm]. split; auto. now apply mem_In.
Qed.

Lemma ready_false_blocker (names : list string) (s : Settings) :
  ready names s = false -> exists o, blocker names s = Some o.
Proof.
  unfold blocker. intro Hr.
  destruct (List.find (fun o => mem o names) (declaredOrigins s)) as [o|] eqn:E.
  - now exists o.
  - exfalso. assert (Ht : ready names s = true); [|congruence].
    apply ready_true. intros o Hin Hn.
    apply (find_none _ _ E) in Hin. apply mem_In in Hn. congruence.
Qed.

Lemma selectReady_Some (names : list string) (candidates : SettingsSeq)
    (chosen : string * Settings) (others : SettingsSeq) :
  selectReady names candidates = Some (chosen, others) ->
  exists l1 l2,
    candidates = l1 ++ chosen :: l2 /\ others = l1 ++ l2 /\
    ready names (snd chosen) = true.
Proof.
  revert others. induction candidates as [|[n s] rest IH]; intros others;
    cbn; [discriminate|].
  destruct (ready names s) eqn:Hr.
  - intros [= <- <-]. exists [], rest. auto.
  - destruct (selectReady names rest) as [[c o]|]; [|discriminate].
    intros [= <- <-]. destruct (IH o eq_refl) as (l1 & l2 & -> & -> & Hc).
    exists ((n, s) :: l1), l2. auto.
Qed.

Lemma selectReady_None (names : list string) (candidates : SettingsSeq) :
  selectReady names candidates = None ->
  forall n s, In (n, s) candidates -> ready names s = false.
Proof.
  induction candidates as [|[n0 s0] rest IH]; cbn; [intros _ n s []|].
  destruct (ready names s0) eqn:Hr; [discriminate|].
  destruct (selectReady names rest) as [[c o]|]; [discriminate|].
  intros _ n s [[= <- <-]|Hin]; [assumption|].
  now apply (IH eq_refl n s).
Qed.

Lemma dependsOn_incl (m m' : SettingsSeq) (b o : string) :
  incl m m' -> dependsOn m b o -> dependsOn m' b o.
Proof.
  intros Hi (s & Hin & Ho & Hk). exists s. repeat split; auto.
  destruct (keys_In_inv m o Hk) as [v Hv]. eapply keys_In, Hi, Hv.
Qed.

Lemma dependsOnTrans_incl (m m' : SettingsSeq) (x y : string) :
  incl m m' ->
  Relation_Operators.clos_trans string (dependsOn m) x y ->
  Relation_Operators.clos_trans string (dependsOn m') x y.
Proof.
  intros Hi H. induction H as [x y Hxy|x y z _ IH1 _ IH2].
  - apply Relation_Operators.t_step. eapply dependsOn_incl; eauto.
  - eapply Relation_Operators.t_trans; eauto.
Qed.

Lemma onCycle_incl (m m' : SettingsSeq) (b : string) :
  incl m m' -> onCycle m b -> onCycle m' b.
Proof. unfold onCycle. apply dependsOnTrans_incl. Qed.

(** When every pending body is blocked, each pending name has a blocker
    among the pending names, which it depends on. *)
Lemma blocked_step (pending : SettingsSeq) (current : string) :
  (forall n s, In (n, s) pending -> ready (keys pending) s = false) ->
  In current (keys pending) ->
  exists s o,
    find pending current = Some s /\
    blocker (keys pending) s = Some o /\
    In o (keys pending) /\
    dependsOn pending current o.
Proof.
  intros Hblocked Hin.
  destruct (find pending current) as [s|] eqn:Hf.
  2:{ apply find_None_keys in Hf. contradiction. }
  apply find_Some_In in Hf.
  destruct (ready_false_blocker _ _ (Hblocked _ _ Hf)) as [o Ho].
  destruct (blocker_Some _ _ _ Ho) as [Hd Hk].
  exists s, o. repeat split; auto. exists s. auto.
Qed.

Lemma walk_onCycle (pending : SettingsSeq) :
  (forall n s, In (n, s) pending -> ready (keys pending) s = false) ->
  forall fuel visited current,
    In current (keys pending) ->
    NoDup visited ->
    incl visited (keys pending) ->
    (forall v, In v visited ->
       Relation_Operators.clos_trans string (dependsOn pending) v current) ->
    length (keys pending) < fuel + length visited ->
    onCycle pending (walk fuel pending visited current).
Proof.
  intros Hblocked fuel.
  induction fuel as [|fuel IH]; intros visited current Hin Hnd Hincl Hpath Hlen.
  - exfalso. pose proof (NoDup_incl_length Hnd Hincl). cbn in Hlen. lia.
  - cbn [walk]. destruct (mem current visited) eqn:Hm.
    + apply mem_In in Hm. apply Hpath, Hm.
    + apply mem_false in Hm.
      destruct (blocked_step pending current Hblocked Hin)
        as (s & o & -> & -> & Ho & Hdep).
      apply IH; auto.
      * constructor; auto.
      * intros v [<-|Hv]; auto.
      * intros v [<-|Hv].
        -- now apply Relation_Operators.t_step.
        -- eapply Relation_Operators.t_trans; [apply Hpath, Hv|].
           now apply Relation_Operators.t_step.
      * cbn [length]. lia.
Qed.

(** A stuck round names a body that lies on a cycle. *)
Lemma cycleMember_onCycle (pending : SettingsSeq) :
  pending <> [] ->
  (forall n s, In (n, s) pending -> ready (keys pending) s = false) ->
  onCycle pending (cycleMember pending).
Proof.
  intros Hne Hblocked. destruct pending as [|[n s] rest]; [congruence|].
  unfold cycleMember. apply walk_onCycle; auto.
  - now left.
  - constructor.
  - intros v [].
  - intros v [].
  - unfold keys. rewrite length_map. cbn. lia.
Qed.

Lemma NoDup_keys_remove {A : Type} (l1 l2 : list (string * A))
    (x : string * A) :
  NoDup (keys (l1 ++ x :: l2)) ->
  NoDup (keys (l1 ++ l2)) /\ ~ In (fst x) (keys (l1 ++ l2)).
Proof.
  rewrite !keys_app. cbn. intro H. split.
  - eapply NoDup_remove_1; eauto.
  - eapply NoDup_remove_2; eauto.
Qed.

(** What a resolved order satisfies. *)
Lemma resolve_Ordered (rounds : nat) :
  forall (pending order : SettingsSeq),
    NoDup (keys pending) ->
    resolve rounds pending = Ordered order ->
    Permutation order pending /\
    (forall b s o,
       In (b, s) order -> In o (declaredOrigins s) -> In o (keys pending) ->
       appearsBefore o b (keys order)).
Proof.
  induction rounds as [|rounds IH]; intros pending order Hnd;
    destruct pending as [|p pending']; cbn [resolve];
    try (intros [= <-]; split; [constructor|intros b s o []]);
    try discriminate.
  destruct (selectReady (keys (p :: pending')) (p :: pending'))
    as [[chosen others]|] eqn:Hsel; [|discriminate].
  destruct (resolve rounds others) as [order'|e] eqn:Hres; [|discriminate].
  intros [= <-].
  destruct (selectReady_Some _ _ _ _ Hsel) as (l1 & l2 & Hsplit & -> & Hready).
  rewrite Hsplit in *. clear Hsplit Hsel.
  destruct (NoDup_keys_remove l1 l2 chosen Hnd) as [Hnd' Hfresh].
  destruct (IH _ _ Hnd' Hres) as [Hperm Hbefore].
  assert (Hkeys : forall k, In k (keys order') <-> In k (keys (l1 ++ l2))).
  { intro k. split; apply Permutation_in, Permutation_map;
      auto using Permutation_sym. }
  split.
  - eapply Permutation_trans; [apply perm_skip, Hperm|].
    apply Permutation_middle.
  - intros b s o [Heq|Hin] Ho Hk.
    + exfalso. subst chosen. cbn [snd] in Hready.
      now apply (proj1 (ready_true _ _) Hready o Ho).
    + destruct chosen as [c sc]. cbn [fst snd] in *.
      assert (Hb : In b (keys order')) by (eapply keys_In; eauto).
      assert (Hcb : c <> b).
      { intros ->. apply Hfresh. now apply Hkeys. }
      unfold appearsBefore. cbn [keys map fst length].
      fold (keys order'). rewrite (index_cons_other b c _ Hcb).
      rewrite keys_app in Hk. cbn in Hk. rewrite in_app_iff in Hk. cbn in Hk.
      assert (Hcases : c = o \/ In o (keys (l1 ++ l2))).
      { rewrite keys_app, in_app_iff. tauto. }
      destruct Hcases as [<-|Hko].
      * rewrite index_cons_same. split; [lia|].
        apply index_In in Hb. lia.
      * assert (Hco : c <> o).
        { intros ->. now apply Hfresh. }
        rewrite (index_cons_other o c _ Hco).
        destruct (Hbefore b s o Hin Ho Hko) as [H1 H2]. lia.
Qed.

(** A failed resolution names a body on a cycle of the pending bodies. *)
Lemma resolve_Failed (rounds : nat) :
  forall (pending : SettingsSeq) (b : string),
    length pending <= rounds ->
    resolve rounds pending = Failed (CycleDetected b) ->
    onCycle pending b.
Proof.
  induction rounds as [|rounds IH]; intros pending b Hlen;
    destruct pending as [|p pending']; cbn [resolve]; try discriminate.
  - cbn in Hlen. lia.
  - destruct (selectReady (keys (p :: pending')) (p :: pending'))
      as [[chosen others]|] eqn:Hsel.
    + destruct (resolve rounds others) as [order'|e] eqn:Hres;
        [discriminate|].
      intros [= ->].
      destruct (selectReady_Some _ _ _ _ Hsel)
        as (l1 & l2 & Hsplit & -> & Hready).
      rewrite Hsplit in *.
      apply onCycle_incl with (l1 ++ l2).
      * intros x Hx. apply in_app_iff in Hx. apply in_app_iff.
        destruct Hx; [now left|right; now right].
      * apply IH; auto. rewrite length_app in *. cbn in Hlen. lia.
    + intros [= <-]. apply cycleMember_onCycle; [discriminate|].
      now apply selectReady_None.
Qed.

Lemma resolve_never_fails_otherwise (rounds : nat) (pending : SettingsSeq) :
  (exists order, resolve rounds pending = Ordered order) \/
  (exists b, resolve rounds pending = Failed (CycleDetected b)).
Proof.
  destruct (resolve rounds pending) as [order|[b]]; eauto.
Qed.

(** Along a dependency path, positions in a resolved order decrease. *)
Lemma dependsOnTrans_index (m : SettingsSeq) (names : list string) :
  (forall b o, dependsOn m b o -> appearsBefore o b names) ->
  forall x y,
    Relation_Operators.clos_trans string (dependsOn m) x y ->
    index y names < index x names.
Proof.
  intros Hedge x y H. induction H as [x y Hxy|x y z _ IH1 _ IH2].
  - now destruct (Hedge x y Hxy).
  - lia.
Qed.

Lemma edgesDecrease_acyclic (rank : string -> nat) (m : SettingsSeq) :
  edgesDecrease rank m = true -> acyclic m.
Proof.
  unfold edgesDecrease. rewrite forallb_forall. intro Hcheck.
  assert (Hedge : forall b o, dependsOn m b o -> rank o < rank b).
  { intros b o (s & Hin & Ho & Hk).
    specialize (Hcheck (b, s) Hin). cbn [fst snd] in Hcheck.
    rewrite forallb_forall in Hcheck. specialize (Hcheck o Ho).
    apply mem_In in Hk. rewrite Hk in Hcheck. cbn in Hcheck.
    now apply Nat.ltb_lt. }
  assert (Hpath : forall x y,
            Relation_Operators.clos_trans string (dependsOn m) x y ->
            rank y < rank x).
  { intros x y H. induction H as [x y Hxy|x y z _ IH1 _ IH2]; auto. lia. }
  intros b Hb. apply Hpath in Hb. lia.
Qed.

(** [appearsBefore] in terms of the sequence itself. *)
Lemma appearsBefore_split (o b : string) (l : list string) :
  appearsBefore o b l ->
  exists l1 l2 l3, l = l1 ++ o :: l2 ++ b :: l3.
Proof.
  unfold appearsBefore. induction l as [|y l IH]; cbn [length]; [lia|].
  intros [Hlt Hlen].
  destruct (string_dec y o) as [->|Hyo].
  - rewrite index_cons_same in Hlt.
    destruct (string_dec o b) as [->|Hob];
      [rewrite index_cons_same in Hlt; lia|].
    rewrite (index_cons_other b o l Hob) in Hlen.
    assert (Hin : In b l) by (apply index_In; lia).
    destruct (in_split _ _ Hin) as (l2 & l3 & ->).
    now exists [], l2, l3.
  - rewrite (index_cons_other o y l Hyo) in Hlt.
    destruct (string_dec y b) as [->|Hyb];
      [rewrite index_cons_same in Hlt; lia|].
    rewrite (index_cons_other b y l Hyb) in Hlt, Hlen.
    destruct IH as (l1 & l2 & l3 & ->); [lia|].
    now exists (y :: l1), l2, l3.
Qed.

(** C4.  On an acyclic settings map, [determineBodyCreationOrder] returns
    an order of all the bodies in which every body comes strictly after
    each frame origin that its ephemeris or rotation settings declare and
    that is a key of the map.  An origin that is no key of the map puts no
    constraint on the body. *)
Theorem resolveCreationOrder_respects_dependencies (input : SettingsSeq) :
  NoDup (keys input) ->
  acyclic input ->
  exists order,
    determineBodyCreationOrder input = Ordered order /\
    Permutation order input /\
    (forall b s o,
       In (b, s) input ->
       In o (declaredOrigins s) ->
       In o (keys input) ->
       appearsBefore o b (keys order) /\
       exists l1 l2 l3, keys order = l1 ++ o :: l2 ++ b :: l3).
Proof.
  intros Hnd Hacyclic. unfold determineBodyCreationOrder.
  destruct (resolve_never_fails_otherwise (length input) input)
    as [[order Hres]|[b Hres]].
  - exists order. split; [assumption|].
    destruct (resolve_Ordered _ _ _ Hnd Hres) as [Hperm Hbefore].
    split; [assumption|].
    intros b s o Hin Ho Hk.
    assert (Hb : appearsBefore o b (keys order)).
    { apply (Hbefore b s o); auto.
      apply Permutation_in with input; auto using Permutation_sym. }
    split; [assumption|]. now apply appearsBefore_split.
  - exfalso. apply (Hacyclic b).
    now apply (resolve_Failed (length input) input b (le_n _)).
Qed.

(** C5.  When the dependency graph of the input has a cycle,
    [determineBodyCreationOrder] fails with [CycleDetected] and the body
    it names lies on a cycle; the result is a function of the input and a
    failure carries no order. *)
Theorem resolveCreationOrder_detects_cycle (input : SettingsSeq) :
  NoDup (keys input) ->
  (exists b, onCycle input b) ->
  exists culprit,
    determineBodyCreationOrder input = Failed (CycleDetected culprit) /\
    onCycle input culprit /\
    In culprit (keys input) /\
    forall order, determineBodyCreationOrder input <> Ordered order.
Proof.
  intros Hnd [b Hb]. unfold determineBodyCreationOrder.
  destruct (resolve_never_fails_otherwise (length input) input)
    as [[order Hres]|[c Hres]].
  - exfalso.
    destruct (resolve_Ordered _ _ _ Hnd Hres) as [Hperm Hbefore].
    assert (Hedge : forall x o, dependsOn input x o ->
                      appearsBefore o x (keys order)).
    { intros x o (s & Hin & Ho & Hk). apply (Hbefore x s o); auto.
      apply Permutation_in with input; auto using Permutation_sym. }
    pose proof (dependsOnTrans_index input (keys order) Hedge b b Hb). lia.
  - exists c. rewrite Hres.
    assert (Hc : onCycle input c)
      by now apply (resolve_Failed (length input) input c (le_n _)).
    repeat split; auto; try discriminate.
    assert (Hstep : exists z, dependsOn input c z).
    { unfold onCycle in Hc.
      apply Operators_Properties.clos_trans_t1n in Hc.
      inversion Hc; eauto. }
    destruct Hstep as (z & s & Hin & _). eapply keys_In; eauto.
Qed.

End CreationOrderFacts.

(** ** The resolver on the example settings *)

Lemma resolveCreationOrder_respects_dependencies_witness :
  exists order,
    determineBodyCreationOrder solarSettings = Ordered order /\
    keys order = ["Sun"; "Earth"; "Moon"] /\
    appearsBefore "Earth" "Moon" (keys order).
Proof.
  destruct (resolveCreationOrder_respects_dependencies unit solarSettings)
    as (order & Hres & _ & Hbefore).
  - repeat constructor; cbn; intuition discriminate.
  - apply edgesDecrease_acyclic
      with (rank := fun n => index n ["SSB"; "Sun"; "Earth"; "Moon"]).
    reflexivity.
  - exists order. split; [exact Hres|].
    assert (Hk : keys order = ["Sun"; "Earth"; "Moon"]).
    { cbv in Hres. injection Hres as <-. reflexivity. }
    split; [exact Hk|].
    apply (Hbefore "Moon" (settingsAbout "Earth") "Earth").
    + cbn. auto.
    + cbn. auto.
    + cbn. auto.
Defined.

Lemma resolveCreationOrder_detects_cycle_witness :
  determineBodyCreationOrder cyclicSettings = Failed (CycleDetected "A").
Proof.
  destruct (resolveCreationOrder_detects_cycle unit cyclicSettings)
    as (culprit & Hres & _).
  - repeat constructor; cbn; intuition discriminate.
  - exists "A". unfold onCycle.
    apply Relation_Operators.t_trans with "B";
      apply Relation_Operators.t_step.
    + exists (settingsAbout "B"). cbn. auto.
    + exists (settingsAbout "A"). cbn. auto.
  - reflexivity.
Defined.

(** ** The claims on the example environments *)

Lemma frameConsistent_by_computation
    (bm : NamedBodyMap) (gO gOr name : string) (b : Body Z Z) :
  firstError bm gO gOr name b = None -> frameConsistent bm gO gOr b.
Proof. apply firstError_None. Qed.

Lemma enforceGlobalFrame_succeeds_iff_consistent_witness :
  outcome (setGlobalFrameBodyEphemerides cpp_double cpp_double
             strayMap "SSB" "ECLIPJ2000" strayHeap) =
  Thrown (MissingFrameOrigin "X" "Y" "SSB").
Proof.
  apply (proj2 (enforceGlobalFrame_succeeds_iff_consistent Z Z
                  cpp_double cpp_double strayMap "SSB" "ECLIPJ2000" strayHeap)
           [] "X" 0 [] strayEphemeris).
  - reflexivity.
  - intros name' l' [].
  - reflexivity.
  - discriminate.
  - cbn. intros [H|[]]. discriminate.
Defined.

(** The messages of the exceptions, as the source builds them. *)
Example what_missing_origin :
  what (MissingFrameOrigin "X" "Y" "SSB") =
  "Error, body X has ephemeris in frame Y, but no conversion to frame SSB can be made".
Proof. reflexivity. Qed.

Example what_rotation_orientation :
  what (FrameOrientationMismatch ofRotationModel "Mars" "J2000" "ECLIPJ2000") =
  "Error, rotation base orientation of body Mars is not the same as global orientation J2000, ECLIPJ2000".
Proof. reflexivity. Qed.

(** C1 as stated fails: with A in another orientation visited before B,
    whose origin Y is unmanaged, the call reports A's orientation. *)
Lemma enforceGlobalFrame_missing_origin_not_always_reported :
  ~ (forall (bm : NamedBodyMap) (gO gOr : string) (h : Heap Z Z)
            (name : string) (l : loc) (eph : Ephemeris Z Z),
       In (name, l) bm ->
       getEphemeris (h l) = Some eph ->
       getReferenceFrameOrigin eph <> gO ->
       ~ In (getReferenceFrameOrigin eph) (keys bm) ->
       outcome (setGlobalFrameBodyEphemerides cpp_double cpp_double
                  bm gO gOr h) =
       Thrown (MissingFrameOrigin name (getReferenceFrameOrigin eph) gO)).
Proof.
  intro H.
  specialize (H twoFailuresMap "SSB" "ECLIPJ2000" twoFailuresHeap
                "B" 1 strayEphemeris).
  assert (Hrun : outcome (setGlobalFrameBodyEphemerides cpp_double cpp_double
                            twoFailuresMap "SSB" "ECLIPJ2000" twoFailuresHeap)
                 = Thrown (FrameOrientationMismatch ofEphemeris
                             "A" "J2000" "ECLIPJ2000"))
    by reflexivity.
  rewrite Hrun in H.
  assert (Hne : Thrown (A := unit)
                  (FrameOrientationMismatch ofEphemeris
                     "A" "J2000" "ECLIPJ2000") <>
                Thrown (MissingFrameOrigin "B" "Y" "SSB"))
    by discriminate.
  apply Hne, H.
  - cbn. auto.
  - reflexivity.
  - discriminate.
  - cbn. intros [E|[E|[]]]; discriminate.
Qed.

Lemma enforceGlobalFrame_orientation_mismatch_witness :
  outcome (setGlobalFrameBodyEphemerides cpp_double cpp_double
             marsMap "SSB" "ECLIPJ2000" marsHeap) =
  Thrown (FrameOrientationMismatch ofRotationModel
            "Mars" "J2000" "ECLIPJ2000").
Proof.
  destruct (enforceGlobalFrame_orientation_mismatch Z Z
              cpp_double cpp_double marsMap "SSB" "ECLIPJ2000" marsHeap)
    as (_ & _ & Hrot & _).
  apply (Hrot [] "Mars" 0 [] {| getBaseFrameOrientation := "J2000" |}).
  - reflexivity.
  - intros name' l' [].
  - intros eph Heph. discriminate Heph.
  - reflexivity.
  - discriminate.
Defined.

(** C3 as stated fails: a body about an unmanaged origin and in another
    orientation is reported for its origin, not for its orientation. *)
Lemma enforceGlobalFrame_orientation_not_always_reported :
  ~ (forall (bm : NamedBodyMap) (gO gOr : string) (h : Heap Z Z)
            (name : string) (l : loc) (eph : Ephemeris Z Z),
       In (name, l) bm ->
       getEphemeris (h l) = Some eph ->
       getReferenceFrameOrientation eph <> gOr ->
       outcome (setGlobalFrameBodyEphemerides cpp_double cpp_double
                  bm gO gOr h) =
       Thrown (FrameOrientationMismatch ofEphemeris name
                 (getReferenceFrameOrientation eph) gOr)).
Proof.
  intro H.
  specialize (H strayMap "SSB" "ECLIPJ2000" strayTiltedHeap
                "X" 0 strayTiltedEphemeris).
  assert (Hrun : outcome (setGlobalFrameBodyEphemerides cpp_double cpp_double
                            strayMap "SSB" "ECLIPJ2000" strayTiltedHeap)
                 = Thrown (MissingFrameOrigin "X" "Y" "SSB"))
    by reflexivity.
  rewrite Hrun in H.
  assert (Hne : Thrown (A := unit) (MissingFrameOrigin "X" "Y" "SSB") <>
                Thrown (FrameOrientationMismatch ofEphemeris
                          "X" "J2000" "ECLIPJ2000"))
    by discriminate.
  apply Hne, H.
  - cbn. auto.
  - reflexivity.
  - discriminate.
Qed.

Lemma enforceGlobalFrame_failure_keeps_attached_adapters_witness :
  exists pre name l post,
    earthMoonMap = pre ++ (name, l) :: post /\
    ~ frameConsistent earthMoonMap "SSB" "ECLIPJ2000" (tiltedMoonHeap l).
Proof.
  destruct (enforceGlobalFrame_failure_keeps_attached_adapters Z Z
              cpp_double cpp_double earthMoonMap "SSB" "ECLIPJ2000"
              tiltedMoonHeap
              (FrameOrientationMismatch ofEphemeris
                 "Moon" "J2000" "ECLIPJ2000"))
    as (pre & name & l & post & Hsplit & _ & Hbad & _).
  - reflexivity.
  - exists pre, name, l, post. auto.
Defined.

(** C6 as stated fails: the Moon, about Earth and in another orientation,
    has received its adapter when the call throws for its orientation. *)
Lemma enforceGlobalFrame_failure_not_atomic :
  outcome (setGlobalFrameBodyEphemerides cpp_double cpp_double
             earthMoonMap "SSB" "ECLIPJ2000" tiltedMoonHeap) =
  Thrown (FrameOrientationMismatch ofEphemeris "Moon" "J2000" "ECLIPJ2000") /\
  ephemerisFrameToBaseFrame (tiltedMoonHeap 1) = None /\
  ephemerisFrameToBaseFrame
    (finalHeap (setGlobalFrameBodyEphemerides cpp_double cpp_double
                  earthMoonMap "SSB" "ECLIPJ2000" tiltedMoonHeap) 1) =
  Some (makeBaseStateInterface cpp_double cpp_double "Earth" 0) /\
  ~ (forall l,
       finalHeap (setGlobalFrameBodyEphemerides cpp_double cpp_double
                    earthMoonMap "SSB" "ECLIPJ2000" tiltedMoonHeap) l =
       tiltedMoonHeap l).
Proof.
  repeat split; try reflexivity.
  intro H. specialize (H 1).
  apply (f_equal (@ephemerisFrameToBaseFrame Z Z)) in H.
  discriminate H.
Qed.

Lemma enforceGlobalFrame_global_origin_noop_witness :
  finalHeap (setGlobalFrameBodyEphemerides cpp_double cpp_double
               earthMoonMap "SSB" "ECLIPJ2000" earthMoonHeap) 0 =
  earthMoonHeap 0.
Proof.
  apply (enforceGlobalFrame_global_origin_noop Z Z cpp_double cpp_double
           earthMoonMap "SSB" "ECLIPJ2000" earthMoonHeap
           "Earth" 0 earthEphemeris).
  - cbn. auto.
  - reflexivity.
  - reflexivity.
  - reflexivity.
Defined.

Lemma enforceGlobalFrame_body_without_models_witness :
  setGlobalFrameBodyEphemerides cpp_double cpp_double
    earthMoonMap "SSB" "ECLIPJ2000" earthMoonHeap =
  iterate cpp_double cpp_double earthMoonMap "SSB" "ECLIPJ2000"
    [("Earth", 0); ("Moon", 1)] earthMoonHeap.
Proof.
  apply (enforceGlobalFrame_body_without_models Z Z cpp_double cpp_double
           earthMoonMap "SSB" "ECLIPJ2000" earthMoonHeap
           [("Earth", 0); ("Moon", 1)] [] "Probe" 2).
  - reflexivity.
  - reflexivity.
  - reflexivity.
Defined.

Lemma enforceGlobalFrame_adapter_template_arguments_witness :
  exists a,
    ephemerisFrameToBaseFrame
      (finalHeap (setGlobalFrameBodyEphemerides cpp_long_double cpp_Time
                    earthMoonMap "SSB" "ECLIPJ2000" earthMoonHeap) 1) =
    Some a /\
    implementationArg1 a = cpp_double /\
    implementationArg2 a = cpp_double /\
    functionStateScalarType (stateFunction a) = cpp_long_double /\
    functionTimeType (stateFunction a) = cpp_Time.
Proof.
  apply (enforceGlobalFrame_adapter_template_arguments Z Z
           cpp_long_double cpp_Time earthMoonMap "SSB" "ECLIPJ2000"
           earthMoonHeap 1).
  intro H. apply (f_equal (@ephemerisFrameToBaseFrame Z Z)) in H.
  discriminate H.
Defined.

Lemma enforceGlobalFrame_attaches_translation_adapter_witness :
  exists a,
    ephemerisFrameToBaseFrame
      (finalHeap (setGlobalFrameBodyEphemerides cpp_double cpp_double
                    earthMoonMap "SSB" "ECLIPJ2000" earthMoonHeap) 1) =
    Some a /\
    baseFrameId a = "Earth" /\
    boundBody (stateFunction a) = 0 /\
    getBaseFrameState Z.add 1
      (finalHeap (setGlobalFrameBodyEphemerides cpp_double cpp_double
                    earthMoonMap "SSB" "ECLIPJ2000" earthMoonHeap)) a 5%Z =
    Some (getCartesianState earthEphemeris 5%Z).
Proof.
  destruct (enforceGlobalFrame_attaches_translation_adapter Z Z Z.add
              cpp_double cpp_double earthMoonMap "SSB" "ECLIPJ2000"
              earthMoonHeap [("Earth", 0)] [("Probe", 2)] "Moon" 1
              moonEphemeris 0)
    as (a & Hslot & Hid & Hbound & Hquery & _ & _).
  - reflexivity.
  - intros name' l' [Hin|[]]. injection Hin as <- <-.
    apply frameConsistent_by_computation with (name := "Earth").
    reflexivity.
  - reflexivity.
  - discriminate.
  - reflexivity.
  - exists a. split; [exact Hslot|]. split; [exact Hid|].
    split; [exact Hbound|]. rewrite Hquery. reflexivity.
Defined.

Lemma mutualHeap_query_never_returns (fuel : nat) (t : Z) :
  getStateInBaseFrameFromEphemeris Z.add fuel
    (finalHeap (setGlobalFrameBodyEphemerides cpp_double cpp_double
                  mutualMap "SSB" "ECLIPJ2000" mutualHeap)) 0 t = None /\
  getStateInBaseFrameFromEphemeris Z.add fuel
    (finalHeap (setGlobalFrameBodyEphemerides cpp_double cpp_double
                  mutualMap "SSB" "ECLIPJ2000" mutualHeap)) 1 t = None.
Proof.
  set (h' := finalHeap (setGlobalFrameBodyEphemerides cpp_double cpp_double
                          mutualMap "SSB" "ECLIPJ2000" mutualHeap)).
  assert (HA : h' 0 =
               {| getEphemeris := Some (exampleEphemeris "B" "ECLIPJ2000" 1 1);
                  getRotationalEphemeris := None;
                  ephemerisFrameToBaseFrame :=
                    Some (makeBaseStateInterface cpp_double cpp_double
                            "B" 1) |})
    by reflexivity.
  assert (HB : h' 1 =
               {| getEphemeris := Some (exampleEphemeris "A" "ECLIPJ2000" 2 1);
                  getRotationalEphemeris := None;
                  ephemerisFrameToBaseFrame :=
                    Some (makeBaseStateInterface cpp_double cpp_double
                            "A" 0) |})
    by reflexivity.
  induction fuel as [|fuel [IH0 IH1]]; [split; reflexivity|].
  split; rewrite getState_S.
  - rewrite HA. cbn [getEphemeris ephemerisFrameToBaseFrame boundBody
                       stateFunction makeBaseStateInterface].
    now rewrite IH1.
  - rewrite HB. cbn [getEphemeris ephemerisFrameToBaseFrame boundBody
                       stateFunction makeBaseStateInterface].
    now rewrite IH0.
Qed.

(** C2 as stated fails.  When the Earth, visited first, fails its
    orientation check, the Moon never receives an adapter.  When the
    origin body has no ephemeris, the call succeeds and attaches the
    adapter, but invoking it returns no state.  And when A and B are each
    other's origin, the call succeeds and attaches both adapters, but
    invoking A's adapter never returns: B's state goes through B's adapter,
    which asks for A's state, which goes through A's adapter. *)
Lemma enforceGlobalFrame_adapter_not_always_usable :
  (outcome (setGlobalFrameBodyEphemerides cpp_double cpp_double
              earthMoonMap "SSB" "ECLIPJ2000" tiltedEarthHeap) =
   Thrown (FrameOrientationMismatch ofEphemeris
             "Earth" "J2000" "ECLIPJ2000") /\
   getEphemeris (tiltedEarthHeap 1) = Some moonEphemeris /\
   find earthMoonMap "Earth" = Some 0 /\
   ephemerisFrameToBaseFrame
     (finalHeap (setGlobalFrameBodyEphemerides cpp_double cpp_double
                   earthMoonMap "SSB" "ECLIPJ2000" tiltedEarthHeap) 1) =
   None) /\
  (outcome (setGlobalFrameBodyEphemerides cpp_double cpp_double
              landerMap "SSB" "ECLIPJ2000" landerHeap) = Returned tt /\
   ephemerisFrameToBaseFrame
     (finalHeap (setGlobalFrameBodyEphemerides cpp_double cpp_double
                   landerMap "SSB" "ECLIPJ2000" landerHeap) 0) =
   Some (makeBaseStateInterface cpp_double cpp_double "Station" 1) /\
   forall fuel t,
     getBaseFrameState Z.add fuel
       (finalHeap (setGlobalFrameBodyEphemerides cpp_double cpp_double
                     landerMap "SSB" "ECLIPJ2000" landerHeap))
       (makeBaseStateInterface cpp_double cpp_double "Station" 1) t = None) /\
  (outcome (setGlobalFrameBodyEphemerides cpp_double cpp_double
              mutualMap "SSB" "ECLIPJ2000" mutualHeap) = Returned tt /\
   ephemerisFrameToBaseFrame
     (finalHeap (setGlobalFrameBodyEphemerides cpp_double cpp_double
                   mutualMap "SSB" "ECLIPJ2000" mutualHeap) 0) =
   Some (makeBaseStateInterface cpp_double cpp_double "B" 1) /\
   forall fuel t,
     getBaseFrameState Z.add fuel
       (finalHeap (setGlobalFrameBodyEphemerides cpp_double cpp_double
                     mutualMap "SSB" "ECLIPJ2000" mutualHeap))
       (makeBaseStateInterface cpp_double cpp_double "B" 1) t = None).
Proof.
  split; [repeat split; reflexivity|]. split.
  - split; [reflexivity|]. split; [reflexivity|].
    intros [|fuel] t; reflexivity.
  - split; [reflexivity|]. split; [reflexivity|].
    intros fuel t. unfold getBaseFrameState.
    apply (mutualHeap_query_never_returns fuel t).
Qed.

Lemma adapter_value_independent_of_processing_order_witness :
  getBaseFrameState Z.add 3
    (finalHeap (iterate cpp_double cpp_double chainMap "SSB" "ECLIPJ2000"
                  [("Moon", 1); ("Sun", 2); ("Earth", 0)] chainHeap))
    (makeBaseStateInterface cpp_double cpp_double "Earth" 0) 5%Z =
  getBaseFrameState Z.add 3
    (finalHeap (iterate cpp_double cpp_double chainMap "SSB" "ECLIPJ2000"
                  chainMap chainHeap))
    (makeBaseStateInterface cpp_double cpp_double "Earth" 0) 5%Z /\
  getBaseFrameState Z.add 3
    (finalHeap (iterate cpp_double cpp_double chainMap "SSB" "ECLIPJ2000"
                  chainMap chainHeap))
    (makeBaseStateInterface cpp_double cpp_double "Earth" 0) 5%Z =
  Some (mkVector6 1115 0 0 3 0 0)%Z.
Proof.
  destruct (adapter_value_independent_of_processing_order Z Z Z.add
              cpp_double cpp_double chainMap "SSB" "ECLIPJ2000"
              chainMap [("Moon", 1); ("Sun", 2); ("Earth", 0)] chainHeap)
    as (_ & _ & Hsame).
  - apply Permutation_refl.
  - apply (Permutation_cons_app [("Moon", 1); ("Sun", 2)] []).
    apply Permutation_refl.
  - reflexivity.
  - split; [|reflexivity].
    apply (Hsame 1 (makeBaseStateInterface cpp_double cpp_double "Earth" 0)).
    reflexivity.
Defined.

(** C8 as stated fails when the pass throws.  Both orders below are orders
    of the same map and both throw for X.  Under the first the Moon is
    visited and Earth is not, under the second both are: the Moon carries
    the same adapter after either, and invoking it returns Earth's
    ephemeris state after the first and that state plus the Sun's after
    the second. *)
Lemma adapter_value_depends_on_order_when_pass_throws :
  let order1 := [("Moon", 1); ("X", 3); ("Earth", 0); ("Sun", 2)] in
  let order2 := [("Earth", 0); ("Moon", 1); ("X", 3); ("Sun", 2)] in
  let run1 := iterate cpp_double cpp_double faultyChainMap
                "SSB" "ECLIPJ2000" order1 faultyChainHeap in
  let run2 := iterate cpp_double cpp_double faultyChainMap
                "SSB" "ECLIPJ2000" order2 faultyChainHeap in
  let moonAdapter := makeBaseStateInterface cpp_double cpp_double "Earth" 0 in
  Permutation faultyChainMap order1 /\
  Permutation faultyChainMap order2 /\
  outcome run1 =
  Thrown (FrameOrientationMismatch ofEphemeris "X" "J2000" "ECLIPJ2000") /\
  outcome run2 =
  Thrown (FrameOrientationMismatch ofEphemeris "X" "J2000" "ECLIPJ2000") /\
  ephemerisFrameToBaseFrame (finalHeap run1 1) = Some moonAdapter /\
  ephemerisFrameToBaseFrame (finalHeap run2 1) = Some moonAdapter /\
  getBaseFrameState Z.add 3 (finalHeap run1) moonAdapter 5%Z =
  Some (mkVector6 115 0 0 3 0 0)%Z /\
  getBaseFrameState Z.add 3 (finalHeap run2) moonAdapter 5%Z =
  Some (mkVector6 1115 0 0 3 0 0)%Z /\
  getBaseFrameState Z.add 3 (finalHeap run1) moonAdapter 5%Z <>
  getBaseFrameState Z.add 3 (finalHeap run2) moonAdapter 5%Z.
Proof.
  cbv zeta. split; [|split].
  - apply (Permutation_cons_app [("Moon", 1); ("X", 3)] [("Sun", 2)]).
    apply perm_skip, perm_swap.
  - apply perm_skip, perm_skip, perm_swap.
  - repeat split; try reflexivity. discriminate.
Qed.

(** * Further properties of the frame consistency pass *)

Section FurtherPassFacts.

Variable Time : Type.
Variable Scalar : Type.

Lemma pointsTo_app (pre post : NamedBodyMap) (l : loc) :
  pointsTo (pre ++ post) l = pointsTo pre l || pointsTo post l.
Proof. unfold pointsTo. apply existsb_app. Qed.

Lemma attachTo_attachTo (S_ T_ S' T' : CppType) (bm : NamedBodyMap)
    (gO : string) (b : Body Time Scalar) :
  attachTo S' T' bm gO (attachTo S_ T_ bm gO b) = attachTo S' T' bm gO b.
Proof.
  unfold attachTo, adapterFor.
  destruct (getEphemeris b) as [eph|] eqn:He; [|now rewrite He].
  destruct (String.eqb (getReferenceFrameOrigin eph) gO) eqn:Eo;
    [now rewrite He, Eo|].
  destruct (find bm (getReferenceFrameOrigin eph)) as [lo|] eqn:Hf;
    [|now rewrite He, Eo, Hf].
  cbn. now rewrite Eo, Hf.
Qed.

Lemma firstError_sameFrames (bm : NamedBodyMap) (gO gOr name : string)
    (b b' : Body Time Scalar) :
  sameFrames b b' ->
  firstError bm gO gOr name b = firstError bm gO gOr name b'.
Proof.
  intros [He Hr]. unfold firstError, ephemerisError, rotationError.
  destruct (getEphemeris b) as [eph|], (getEphemeris b') as [eph'|];
    cbn in He; try discriminate;
  destruct (getRotationalEphemeris b) as [rot|],
           (getRotationalEphemeris b') as [rot'|];
    cbn in Hr; try discriminate;
  try (injection He as -> ->); try (injection Hr as ->); reflexivity.
Qed.

(** What the failing check of a round has found. *)
Lemma firstError_Some (bm : NamedBodyMap) (gO gOr name : string)
    (b : Body Time Scalar) (e : runtime_error) :
  firstError bm gO gOr name b = Some e ->
  match e with
  | MissingFrameOrigin body o g =>
      body = name /\ g = gO /\ o <> gO /\ ~ In o (keys bm) /\
      exists eph, getEphemeris b = Some eph /\
                  getReferenceFrameOrigin eph = o
  | FrameOrientationMismatch ofEphemeris body o g =>
      body = name /\ g = gOr /\ o <> gOr /\
      exists eph, getEphemeris b = Some eph /\
                  getReferenceFrameOrientation eph = o
  | FrameOrientationMismatch ofRotationModel body o g =>
      body = name /\ g = gOr /\ o <> gOr /\
      exists rot, getRotationalEphemeris b = Some rot /\
                  getBaseFrameOrientation rot = o
  end.
Proof.
  unfold firstError, ephemerisError, rotationError.
  assert (Hrot :
    match getRotationalEphemeris b with
    | Some rot =>
        if String.eqb (getBaseFrameOrientation rot) gOr then None
        else Some (FrameOrientationMismatch ofRotationModel name
                     (getBaseFrameOrientation rot) gOr)
    | None => None
    end = Some e ->
    match e with
    | MissingFrameOrigin _ _ _ => False
    | FrameOrientationMismatch ofEphemeris _ _ _ => False
    | FrameOrientationMismatch ofRotationModel body o g =>
        body = name /\ g = gOr /\ o <> gOr /\
        exists rot, getRotationalEphemeris b = Some rot /\
                    getBaseFrameOrientation rot = o
    end).
  { destruct (getRotationalEphemeris b) as [rot|]; [|discriminate].
    destruct (String.eqb (getBaseFrameOrientation rot) gOr) eqn:E;
      [discriminate|].
    intros [= <-]. apply String.eqb_neq in E. repeat split; eauto. }
  destruct (getEphemeris b) as [eph|].
  - destruct (String.eqb (getReferenceFrameOrigin eph) gO) eqn:Eo; cbn.
    + destruct (String.eqb (getReferenceFrameOrientation eph) gOr) eqn:Eor.
      * intro H. apply Hrot in H. destruct e as [|[]]; tauto.
      * intros [= <-]. apply String.eqb_neq in Eor. repeat split; eauto.
    + destruct (Nat.eqb (count bm (getReferenceFrameOrigin eph)) 0) eqn:Ec.
      * intros [= <-]. apply String.eqb_neq in Eo.
        apply Nat.eqb_eq, find_None_count, find_None_keys in Ec.
        repeat split; eauto.
      * destruct (String.eqb (getReferenceFrameOrientation eph) gOr) eqn:Eor.
        -- intro H. apply Hrot in H. destruct e as [|[]]; tauto.
        -- intros [= <-]. apply String.eqb_neq in Eor. repeat split; eauto.
  - intro H. apply Hrot in H. destruct e as [|[]]; tauto.
Qed.

Lemma frameConsistent_more_keys (bm bm' : NamedBodyMap) (gO gOr : string)
    (b : Body Time Scalar) :
  incl (keys bm) (keys bm') ->
  frameConsistent bm gO gOr b -> frameConsistent bm' gO gOr b.
Proof.
  intros Hincl [Heph Hrot]. split; [|exact Hrot].
  intros eph He. destruct (Heph eph He) as [[Ho|Ho] Hor]; auto.
Qed.

(** The shape of every run over the same entries on heaps with the same
    ephemerides: one outcome, and adapters attached for one and the same
    prefix of the entries. *)
Lemma iterate_shape (bm : NamedBodyMap) (gO gOr : string)
    (entries : NamedBodyMap) (h : Heap Time Scalar) :
  exists (visited rest : NamedBodyMap) (res : completion unit),
    entries = visited ++ rest /\
    forall S2 T2 (h2 : Heap Time Scalar),
      (forall l, getEphemeris (h2 l) = getEphemeris (h l) /\
                 getRotationalEphemeris (h2 l) =
                 getRotationalEphemeris (h l)) ->
      outcome (iterate S2 T2 bm gO gOr entries h2) = res /\
      forall l,
        finalHeap (iterate S2 T2 bm gO gOr entries h2) l =
        if pointsTo visited l then attachTo S2 T2 bm gO (h2 l) else h2 l.
Proof.
  destruct (first_failure_exists Time Scalar bm gO gOr entries h)
    as [Hall|(pre & name & l0 & post & e & Hsplit & Hpre & Hfail)].
  - exists entries, [], (Returned tt). split; [now rewrite app_nil_r|].
    intros S2 T2 h2 Hsame.
    assert (Hall2 : forall n l, In (n, l) entries ->
              firstError bm gO gOr n (h2 l) = None).
    { intros n l Hin. rewrite <- (Hall n l Hin).
      apply firstError_ext; apply Hsame. }
    rewrite (iterate_all_pass Time Scalar S2 T2 bm gO gOr entries h2 Hall2).
    split; [reflexivity|]. intro l. cbn. apply attachAll_at.
  - exists (match e with
            | MissingFrameOrigin _ _ _ => pre
            | FrameOrientationMismatch _ _ _ _ => pre ++ [(name, l0)]
            end),
           (match e with
            | MissingFrameOrigin _ _ _ => (name, l0) :: post
            | FrameOrientationMismatch _ _ _ _ => post
            end),
           (Thrown e).
    split.
    { destruct e; [exact Hsplit|]. now rewrite <- app_assoc. }
    intros S2 T2 h2 Hsame. rewrite Hsplit.
    rewrite (iterate_first_failure Time Scalar S2 T2 bm gO gOr pre post name l0 e h2).
    + split; [reflexivity|]. intro l. cbn [finalHeap snd].
      destruct e; cbn [heapAtThrow].
      * apply attachAll_at.
      * rewrite <- attachAll_at, attachAll_app. reflexivity.
    + intros n l Hin. rewrite <- (Hpre n l Hin).
      apply firstError_ext; apply Hsame.
    + rewrite <- Hfail. apply firstError_ext; apply Hsame.
Qed.

(** X1.  Whatever the outcome, the call changes no ephemeris and no
    rotational ephemeris, leaves a body that no entry of the map points to
    exactly as it was, and never empties an adapter slot. *)
Theorem enforceGlobalFrame_frame_condition
    (S_ T_ : CppType) (bm : NamedBodyMap) (gO gOr : string)
    (h : Heap Time Scalar) (l : loc) :
  let h' := finalHeap (setGlobalFrameBodyEphemerides S_ T_ bm gO gOr h) in
  getEphemeris (h' l) = getEphemeris (h l) /\
  getRotationalEphemeris (h' l) = getRotationalEphemeris (h l) /\
  (pointsTo bm l = false -> h' l = h l) /\
  (ephemerisFrameToBaseFrame (h' l) = None ->
   ephemerisFrameToBaseFrame (h l) = None).
Proof.
  unfold setGlobalFrameBodyEphemerides. cbv zeta.
  destruct (iterate_shape bm gO gOr bm h)
    as (visited & rest & res & Hbm & Hshape).
  destruct (Hshape S_ T_ h (fun l => conj eq_refl eq_refl)) as [_ Hl].
  rewrite Hl. repeat split.
  - destruct (pointsTo visited l); auto. apply attachTo_getEphemeris.
  - destruct (pointsTo visited l); auto.
    apply attachTo_getRotationalEphemeris.
  - intro Hnot. rewrite Hbm, pointsTo_app in Hnot.
    apply orb_false_iff in Hnot. destruct Hnot as [Hv _]. now rewrite Hv.
  - destruct (pointsTo visited l); auto.
    unfold attachTo. destruct (adapterFor S_ T_ bm gO (h l)); auto.
    discriminate.
Qed.

(** X2.  A second call with the same map and global frame, on the bodies
    as the first call left them, has the outcome of the first call: it
    returns normally if the first did and throws the same exception
    otherwise.  The adapter a body carries after the second call holds
    what the adapter of a single call with the second call's template
    arguments would hold (frame name, bound body, template arguments);
    the second call attaches it anew. *)
Theorem enforceGlobalFrame_repeated_call
    (S_ T_ S' T' : CppType) (bm : NamedBodyMap) (gO gOr : string)
    (h : Heap Time Scalar) :
  let first := setGlobalFrameBodyEphemerides S_ T_ bm gO gOr h in
  let second :=
    setGlobalFrameBodyEphemerides S' T' bm gO gOr (finalHeap first) in
  outcome second = outcome first /\
  (forall l,
     option_map adapterContent
       (ephemerisFrameToBaseFrame (finalHeap second l)) =
     option_map adapterContent
       (ephemerisFrameToBaseFrame
          (finalHeap (setGlobalFrameBodyEphemerides S' T' bm gO gOr h) l))).
Proof.
  unfold setGlobalFrameBodyEphemerides. cbv zeta.
  destruct (iterate_shape bm gO gOr bm h)
    as (visited & rest & res & Hbm & Hshape).
  destruct (Hshape S_ T_ h (fun l => conj eq_refl eq_refl)) as [Ho1 Hh1].
  destruct (Hshape S' T' h (fun l => conj eq_refl eq_refl)) as [_ Hh1'].
  assert (Hsame : forall l,
            getEphemeris (finalHeap (iterate S_ T_ bm gO gOr bm h) l) =
            getEphemeris (h l) /\
            getRotationalEphemeris
              (finalHeap (iterate S_ T_ bm gO gOr bm h) l) =
            getRotationalEphemeris (h l)).
  { intro l. rewrite Hh1. destruct (pointsTo visited l); auto.
    split; [apply attachTo_getEphemeris
           |apply attachTo_getRotationalEphemeris]. }
  destruct (Hshape S' T' _ Hsame) as [Ho2 Hh2].
  split; [congruence|].
  intro l. rewrite Hh2, Hh1', Hh1.
  destruct (pointsTo visited l); auto. now rewrite attachTo_attachTo.
Qed.

(** X3.  An exception of the call is genuine.  It names a key of the map
    and carries the global origin or orientation passed to the call; a
    MissingFrameOrigin reports the origin that the ephemeris of the named
    body declares, which differs from the global origin and is no key of
    the map; a FrameOrientationMismatch reports the orientation that the
    ephemeris, or the rotational ephemeris, of the named body declares,
    which differs from the global orientation. *)
Theorem enforceGlobalFrame_exception_is_genuine
    (S_ T_ : CppType) (bm : NamedBodyMap) (gO gOr : string)
    (h : Heap Time Scalar) (e : runtime_error) :
  outcome (setGlobalFrameBodyEphemerides S_ T_ bm gO gOr h) = Thrown e ->
  match e with
  | MissingFrameOrigin body o g =>
      g = gO /\ o <> gO /\ ~ In o (keys bm) /\
      exists l eph, In (body, l) bm /\ getEphemeris (h l) = Some eph /\
                    getReferenceFrameOrigin eph = o
  | FrameOrientationMismatch ofEphemeris body o g =>
      g = gOr /\ o <> gOr /\
      exists l eph, In (body, l) bm /\ getEphemeris (h l) = Some eph /\
                    getReferenceFrameOrientation eph = o
  | FrameOrientationMismatch ofRotationModel body o g =>
      g = gOr /\ o <> gOr /\
      exists l rot, In (body, l) bm /\
                    getRotationalEphemeris (h l) = Some rot /\
                    getBaseFrameOrientation rot = o
  end.
Proof.
  unfold setGlobalFrameBodyEphemerides. intro Hout.
  destruct (first_failure_exists Time Scalar bm gO gOr bm h)
    as [Hall|(pre & name & l0 & post & e0 & Hbm & Hpre & Hfail)].
  - apply (iterate_returns_iff Time Scalar S_ T_) in Hall. rewrite Hall in Hout.
    discriminate.
  - pose proof (iterate_first_failure Time Scalar S_ T_ bm gO gOr pre post name l0 e0 h
                  Hpre Hfail) as Hrun.
    rewrite <- Hbm in Hrun. rewrite Hrun in Hout. cbn in Hout.
    injection Hout as ->.
    assert (Hin : In (name, l0) bm)
      by (rewrite Hbm; apply in_or_app; right; now left).
    apply firstError_Some in Hfail.
    destruct e as [b o g|[] b o g].
    + destruct Hfail as (-> & Hg & Ho & Hk & eph & He & Heo).
      repeat split; auto. exists l0, eph. auto.
    + destruct Hfail as (-> & Hg & Ho & eph & He & Heo).
      repeat split; auto. exists l0, eph. auto.
    + destruct Hfail as (-> & Hg & Ho & rot & Hr & Hro).
      repeat split; auto. exists l0, rot. auto.
Qed.

(** X4.  The outcome of the call is decided by the frame names the bodies
    of the map declare: it is the same on two heaps whose bodies declare
    the same names, whatever their trajectories and the adapters they
    already carry, and the same for every pair of template arguments. *)
Theorem enforceGlobalFrame_outcome_depends_on_declared_frames
    (S_ T_ S' T' : CppType) (bm : NamedBodyMap) (gO gOr : string)
    (h1 h2 : Heap Time Scalar) :
  (forall name l, In (name, l) bm -> sameFrames (h1 l) (h2 l)) ->
  outcome (setGlobalFrameBodyEphemerides S_ T_ bm gO gOr h1) =
  outcome (setGlobalFrameBodyEphemerides S' T' bm gO gOr h2).
Proof.
  unfold setGlobalFrameBodyEphemerides. intro Hsame.
  destruct (first_failure_exists Time Scalar bm gO gOr bm h1)
    as [Hall|(pre & name & l0 & post & e & Hbm & Hpre & Hfail)].
  - assert (Hall2 : forall n l, In (n, l) bm ->
              firstError bm gO gOr n (h2 l) = None).
    { intros n l Hin. rewrite <- (Hall n l Hin). symmetry.
      now apply firstError_sameFrames, Hsame with n. }
    rewrite (iterate_all_pass Time Scalar S_ T_ bm gO gOr bm h1 Hall).
    now rewrite (iterate_all_pass Time Scalar S' T' bm gO gOr bm h2 Hall2).
  - assert (Hpre2 : forall n l, In (n, l) pre ->
              firstError bm gO gOr n (h2 l) = None).
    { intros n l Hin. rewrite <- (Hpre n l Hin). symmetry.
      apply firstError_sameFrames, Hsame with n.
      rewrite Hbm. apply in_or_app. now left. }
    assert (Hfail2 : firstError bm gO gOr name (h2 l0) = Some e).
    { rewrite <- Hfail. symmetry.
      apply firstError_sameFrames, Hsame with name.
      rewrite Hbm. apply in_or_app. right. now left. }
    pose proof (iterate_first_failure Time Scalar S_ T_ bm gO gOr pre post name l0 e h1
                  Hpre Hfail) as H1.
    pose proof (iterate_first_failure Time Scalar S' T' bm gO gOr pre post name l0 e h2
                  Hpre2 Hfail2) as H2.
    rewrite <- Hbm in H1, H2. now rewrite H1, H2.
Qed.

(** X5.  A call that returns normally still returns normally after
    entries are added at the end of the map, provided the bodies they
    point to are frame consistent with respect to the larger map: keys
    added to the map never invalidate a body that passed. *)
Theorem enforceGlobalFrame_success_extends
    (S_ T_ : CppType) (bm extra : NamedBodyMap) (gO gOr : string)
    (h : Heap Time Scalar) :
  outcome (setGlobalFrameBodyEphemerides S_ T_ bm gO gOr h) = Returned tt ->
  (forall name l, In (name, l) extra ->
     frameConsistent (bm ++ extra) gO gOr (h l)) ->
  outcome (setGlobalFrameBodyEphemerides S_ T_ (bm ++ extra) gO gOr h) =
  Returned tt.
Proof.
  unfold setGlobalFrameBodyEphemerides. intros Hret Hextra.
  apply iterate_returns_iff. intros name l Hin. apply firstError_None.
  apply in_app_or in Hin. destruct Hin as [Hin|Hin]; [|now apply Hextra with name].
  apply frameConsistent_more_keys with bm.
  - intros k Hk. unfold keys. rewrite map_app. apply in_or_app. now left.
  - apply (firstError_None Time Scalar bm gO gOr name).
    exact (proj1 (iterate_returns_iff Time Scalar S_ T_ bm gO gOr bm h) Hret name l Hin).
Qed.

End FurtherPassFacts.

(** ** The further properties on the example environments *)

Lemma enforceGlobalFrame_exception_is_genuine_witness :
  "Y" <> "SSB" /\ ~ In "Y" (keys strayMap) /\
  exists l eph, In ("X", l) strayMap /\
                getEphemeris (strayTiltedHeap l) = Some eph /\
                getReferenceFrameOrigin eph = "Y".
Proof.
  destruct (enforceGlobalFrame_exception_is_genuine Z Z
              cpp_double cpp_double strayMap "SSB" "ECLIPJ2000"
              strayTiltedHeap (MissingFrameOrigin "X" "Y" "SSB"))
    as (_ & Hne & Hk & Hbody).
  - reflexivity.
  - auto.
Defined.

Lemma enforceGlobalFrame_outcome_depends_on_declared_frames_witness :
  outcome (setGlobalFrameBodyEphemerides cpp_double cpp_double
             earthMoonMap "SSB" "ECLIPJ2000" earthMoonHeap) =
  outcome (setGlobalFrameBodyEphemerides cpp_long_double cpp_Time
             earthMoonMap "SSB" "ECLIPJ2000" earthMoonHeapLater).
Proof.
  apply (enforceGlobalFrame_outcome_depends_on_declared_frames Z Z
           cpp_double cpp_double cpp_long_double cpp_Time
           earthMoonMap "SSB" "ECLIPJ2000" earthMoonHeap earthMoonHeapLater).
  intros name l [Hin|[Hin|[Hin|[]]]]; injection Hin as <- <-;
    split; reflexivity.
Defined.

Lemma enforceGlobalFrame_success_extends_witness :
  outcome (setGlobalFrameBodyEphemerides cpp_double cpp_double
             ([("Earth", 0)] ++ [("Moon", 1); ("Probe", 2)])
             "SSB" "ECLIPJ2000" earthMoonHeap) =
  Returned tt.
Proof.
  apply (enforceGlobalFrame_success_extends Z Z cpp_double cpp_double
           [("Earth", 0)] [("Moon", 1); ("Probe", 2)]
           "SSB" "ECLIPJ2000" earthMoonHeap).
  - reflexivity.
  - intros name l [Hin|[Hin|[]]]; injection Hin as <- <-;
      apply frameConsistent_by_computation with (name := "body");
      reflexivity.
Defined.
